(** * Hon: the media cache and the media loader

    A shallow embedding of [src/components/media/MediaCache.ts] (the
    [MediaCacheManager] class) and of the retry loop of
    [src/components/MediaContent.tsx] ([loadMedia]), with the properties
    that the specification states about them.

    JavaScript runs the class on one thread: a method body, and the part
    of an [async] function between two [await]s, runs without
    interleaving.  The embedding therefore has one transition per method
    call and one per continuation of the fetch started by [load]. *)

From stdpp Require Import gmap strings list fin_maps.
From Stdlib Require Import ZArith Lia.

Local Open Scope Z_scope.

(** ** [Map<string, V>] with its iteration order

    A JavaScript [Map] iterates in insertion order; [set] on a present
    key keeps the key's position, [delete] drops the key.  [removeOldest]
    depends on that order, so the cache is an association list. *)
Module JsMap.
Section ordered.
Context {V : Type}.

Fixpoint jm_get (k : string) (m : list (string * V)) : option V :=
  match m with
  | [] => None
  | (k', v) :: m' => if decide (k = k') then Some v else jm_get k m'
  end.

Fixpoint jm_set (k : string) (v : V) (m : list (string * V)) : list (string * V) :=
  match m with
  | [] => [(k, v)]
  | (k', v') :: m' =>
      if decide (k = k') then (k, v) :: m' else (k', v') :: jm_set k v m'
  end.

Fixpoint jm_delete (k : string) (m : list (string * V)) : list (string * V) :=
  match m with
  | [] => []
  | (k', v') :: m' =>
      if decide (k = k') then jm_delete k m' else (k', v') :: jm_delete k m'
  end.

Definition jm_size (m : list (string * V)) : nat := length m.

(** The representation invariant of a [Map]: one entry per key. *)
Definition jm_wf (m : list (string * V)) : Prop := NoDup (m.*1).

(** [Array.prototype.sort] is stable: among elements that compare
    equal the earlier one stays first. *)
Fixpoint sort_insert {A} (cmp : A → A → Z) (x : A) (l : list A) : list A :=
  match l with
  | [] => [x]
  | y :: l' => if decide (cmp x y ≤ 0) then x :: l else y :: sort_insert cmp x l'
  end.

Fixpoint array_sort {A} (cmp : A → A → Z) (l : list A) : list A :=
  match l with
  | [] => []
  | x :: l' => sort_insert cmp x (array_sort cmp l')
  end.
End ordered.
End JsMap.
Import JsMap.

(** ** The cache manager *)
Module MediaCache.

Definition Blob := string.

Record CachedMedia := mkMedia {
  id : string;
  blob : Blob;
  objectUrl : string;
  loaded : bool;
  timestamp : Z;
  retries : Z
}.

(** The three [readonly] fields of the class. *)
Record Config := mkConfig {
  maxSize : nat;
  ttl : Z;
  maxRetries : nat
}.

Definition default_config : Config :=
  {| maxSize := 100; ttl := 30 * 60 * 1000; maxRetries := 3 |}.

(** A promise made by [load]: the key it fetches and how it settled. *)
Inductive Settled :=
| Pending
| Fulfilled (media : CachedMedia)
| Rejected (err : string).

Record Fetch := mkFetch { f_url : string; f_state : Settled }.

(** The instance fields, then the part of the browser the class talks
    to: the promises it created (one [fetch] call each, the position in
    the list is the promise's identity), the object URLs handed to
    [URL.revokeObjectURL], and the intervals of [window]. *)
Record State := mkState {
  cache : list (string * CachedMedia);
  cleanupInterval : option positive;
  loadingPromises : gmap string nat;
  promises : list Fetch;
  revoked : list string;
  intervals : list positive;
  nextHandle : positive
}.

Definition set_cache (c : list (string * CachedMedia)) (s : State) : State :=
  mkState c (cleanupInterval s) (loadingPromises s) (promises s)
          (revoked s) (intervals s) (nextHandle s).

Definition set_loadingPromises (l : gmap string nat) (s : State) : State :=
  mkState (cache s) (cleanupInterval s) l (promises s)
          (revoked s) (intervals s) (nextHandle s).

Definition set_promises (p : list Fetch) (s : State) : State :=
  mkState (cache s) (cleanupInterval s) (loadingPromises s) p
          (revoked s) (intervals s) (nextHandle s).

Definition revokeObjectURL (u : string) (s : State) : State :=
  mkState (cache s) (cleanupInterval s) (loadingPromises s) (promises s)
          (revoked s ++ [u]) (intervals s) (nextHandle s).

Definition clearInterval (h : positive) (s : State) : State :=
  mkState (cache s) (cleanupInterval s) (loadingPromises s) (promises s)
          (revoked s) (filter (λ h', h' ≠ h) (intervals s)) (nextHandle s).

Definition set_cleanupInterval (o : option positive) (s : State) : State :=
  mkState (cache s) o (loadingPromises s) (promises s)
          (revoked s) (intervals s) (nextHandle s).

(** [window.setInterval] returns a fresh handle, greater than zero. *)
Definition setInterval (s : State) : State * positive :=
  (mkState (cache s) (cleanupInterval s) (loadingPromises s) (promises s)
           (revoked s) (intervals s ++ [nextHandle s]) (Pos.succ (nextHandle s)),
   nextHandle s).

Section manager.
Variable cfg : Config.

Definition remove (url : string) (s : State) : State :=
  match jm_get url (cache s) with
  | Some item =>
      let s1 := revokeObjectURL (objectUrl item) s in
      set_cache (jm_delete url (cache s1)) s1
  | None => s
  end.

Inductive GetResult :=
| GetLoading (p : nat)
| GetHit (cached : CachedMedia)
| GetMiss.

Definition get (url : string) (now : Z) (s : State) : State * GetResult :=
  match loadingPromises s !! url with
  | Some p => (s, GetLoading p)
  | None =>
      match jm_get url (cache s) with
      | Some cached =>
          if decide (now - timestamp cached > ttl cfg)
          then (remove url s, GetMiss)
          else (s, GetHit cached)
      | None => (s, GetMiss)
      end
  end.

(** The synchronous part of [load]: the [async] arrow runs up to
    [await fetch(url)], so the fetch is issued, then the promise is
    registered. *)
Definition load (url : string) (s : State) : State * nat :=
  match loadingPromises s !! url with
  | Some p => (s, p)
  | None =>
      let p := length (promises s) in
      let s1 := set_promises (promises s ++ [mkFetch url Pending]) s in
      (set_loadingPromises (<[url := p]> (loadingPromises s1)) s1, p)
  end.

Definition by_timestamp (a b : string * CachedMedia) : Z :=
  timestamp a.2 - timestamp b.2.

Definition removeOldest (s : State) : State :=
  match array_sort by_timestamp (cache s) with
  | oldest :: _ => remove oldest.1 s
  | [] => s
  end.

(** What the fetch of a promise comes back with: a response that is
    [ok] and its blob (with the [nanoid()], the [createObjectURL] and
    the [Date.now()] of that moment), or a failure: [fetch] rejected,
    the status was not ok, or [blob()] rejected. *)
Inductive FetchOutcome :=
| FetchOk (b : Blob) (nano : string) (url : string) (now : Z)
| FetchFail (err : string).

(** The rest of the [async] arrow of [load], from the settled fetch to
    the [finally]. Nothing of the state is touched between its two
    [await]s, so it is one transition. *)
Definition settle (p : nat) (o : FetchOutcome) (s : State) : option State :=
  match promises s !! p with
  | Some (mkFetch url Pending) =>
      match o with
      | FetchOk b nano ou now =>
          let media := mkMedia nano b ou true now 0 in
          let s1 := if decide (maxSize cfg ≤ jm_size (cache s))%nat
                    then removeOldest s else s in
          let s2 := set_cache (jm_set url media (cache s1)) s1 in
          let s3 := set_loadingPromises (delete url (loadingPromises s2)) s2 in
          Some (set_promises (<[p := mkFetch url (Fulfilled media)]> (promises s3)) s3)
      | FetchFail err =>
          let s3 := set_loadingPromises (delete url (loadingPromises s)) s in
          Some (set_promises (<[p := mkFetch url (Rejected err)]> (promises s3)) s3)
      end
  | _ => None
  end.

(** The callback of the cleanup interval. *)
Definition sweep (now : Z) (s : State) : State :=
  foldl (λ acc e, if decide (now - timestamp e.2 > ttl cfg)
                  then remove e.1 acc else acc)
        s (cache s).

Definition startCleanupInterval (s : State) : State :=
  let s1 := match cleanupInterval s with
            | Some h => clearInterval h s
            | None => s
            end in
  let '(s2, h) := setInterval s1 in
  set_cleanupInterval (Some h) s2.

Definition clear (s : State) : State :=
  let s1 := foldl (λ acc e, remove e.1 acc) s (cache s) in
  let s2 := match cleanupInterval s1 with
            | Some h => set_cleanupInterval None (clearInterval h s1)
            | None => s1
            end in
  set_loadingPromises ∅ s2.

(** [new MediaCacheManager()]. *)
Definition new : State :=
  startCleanupInterval (mkState [] None ∅ [] [] [] 1%positive).

(** What can happen to an instance: a call of a public method, the
    fetch of a promise coming back, a tick of an interval of the
    window. *)
Inductive Event :=
| EGet (url : string) (now : Z)
| ELoad (url : string)
| ERemove (url : string)
| EClear
| ESettle (p : nat) (o : FetchOutcome)
| ETick (h : positive) (now : Z).

Definition exec (ev : Event) (s : State) : option State :=
  match ev with
  | EGet url now => Some (get url now s).1
  | ELoad url => Some (load url s).1
  | ERemove url => Some (remove url s)
  | EClear => Some (clear s)
  | ESettle p o => settle p o s
  | ETick h now => if decide (h ∈ intervals s) then Some (sweep now s) else None
  end.

Fixpoint run (evs : list Event) (s : State) : option State :=
  match evs with
  | [] => Some s
  | ev :: evs' =>
      match exec ev s with
      | Some s' => run evs' s'
      | None => None
      end
  end.

Definition reachable (s : State) : Prop := ∃ evs, run evs new = Some s.

(** The promise [p] is a fetch of [url] that has not come back. *)
Definition pending (s : State) (p : nat) (url : string) : Prop :=
  promises s !! p = Some (mkFetch url Pending).

End manager.

End MediaCache.

(** ** The loader component and its retry loop

    [MediaContent.tsx] keeps a module-level [Map] of loaded media and,
    per mounted component, a retry counter.  [loadMedia] is an [async]
    callback: it runs up to [await fetch(...)], and goes on when the
    fetch has come back.  The calls of one component follow one another
    (the first by the effect, the next ones by the timer of the retry),
    so the [AbortController] never has a request to abort and is left
    out. *)
Module MediaContent.

Record CacheItem := mkItem {
  item_blob : string;
  item_objectUrl : string;
  item_loaded : bool
}.

(** What one [fetch] comes back with, as [loadMedia] sees it: a
    response that is ok with its blob and the object URL made from it,
    or an error with the message that [catch] extracts. *)
Inductive Response :=
| ResponseOk (blob : string) (newObjectUrl : string)
| ResponseError (message : string).

(** Props, refs and state of one component, the module-level cache, and
    what the component did to its surroundings: how often it called
    [fetch], the delays it passed to [setTimeout], whether such a timer
    is waiting, the object URLs it revoked, and the calls of the two
    callbacks. *)
Record Component := mkComponent {
  url : string;
  mountedRef : bool;
  retryCount : nat;
  isLoading : bool;
  error : option string;
  objectUrl : string;
  mediaCache : gmap string CacheItem;
  fetches : nat;
  timeouts : list Z;
  timer : bool;
  revokedUrls : list string;
  onLoadCalls : nat;
  onErrorCalls : nat
}.

Definition show (u : string) (err : option string) (c : Component) : Component :=
  mkComponent (url c) (mountedRef c) (retryCount c) false err u
              (mediaCache c) (fetches c) (timeouts c) (timer c)
              (revokedUrls c) (onLoadCalls c) (onErrorCalls c).

Definition onLoad (c : Component) : Component :=
  mkComponent (url c) (mountedRef c) (retryCount c) (isLoading c) (error c)
              (objectUrl c) (mediaCache c) (fetches c) (timeouts c) (timer c)
              (revokedUrls c) (S (onLoadCalls c)) (onErrorCalls c).

Definition onError (c : Component) : Component :=
  mkComponent (url c) (mountedRef c) (retryCount c) (isLoading c) (error c)
              (objectUrl c) (mediaCache c) (fetches c) (timeouts c) (timer c)
              (revokedUrls c) (onLoadCalls c) (S (onErrorCalls c)).

Definition fetch (c : Component) : Component :=
  mkComponent (url c) (mountedRef c) (retryCount c) (isLoading c) (error c)
              (objectUrl c) (mediaCache c) (S (fetches c)) (timeouts c) (timer c)
              (revokedUrls c) (onLoadCalls c) (onErrorCalls c).

Definition cache_set (i : CacheItem) (c : Component) : Component :=
  mkComponent (url c) (mountedRef c) (retryCount c) (isLoading c) (error c)
              (objectUrl c) (<[url c := i]> (mediaCache c)) (fetches c)
              (timeouts c) (timer c) (revokedUrls c) (onLoadCalls c)
              (onErrorCalls c).

Definition revokeObjectURL (u : string) (c : Component) : Component :=
  mkComponent (url c) (mountedRef c) (retryCount c) (isLoading c) (error c)
              (objectUrl c) (mediaCache c) (fetches c) (timeouts c) (timer c)
              (revokedUrls c ++ [u]) (onLoadCalls c) (onErrorCalls c).

Definition set_retryCount (n : nat) (c : Component) : Component :=
  mkComponent (url c) (mountedRef c) n (isLoading c) (error c)
              (objectUrl c) (mediaCache c) (fetches c) (timeouts c) (timer c)
              (revokedUrls c) (onLoadCalls c) (onErrorCalls c).

Definition setTimeout (delay : Z) (c : Component) : Component :=
  mkComponent (url c) (mountedRef c) (retryCount c) (isLoading c) (error c)
              (objectUrl c) (mediaCache c) (fetches c) (timeouts c ++ [delay])
              true (revokedUrls c) (onLoadCalls c) (onErrorCalls c).

Definition timer_fired (c : Component) : Component :=
  mkComponent (url c) (mountedRef c) (retryCount c) (isLoading c) (error c)
              (objectUrl c) (mediaCache c) (fetches c) (timeouts c)
              false (revokedUrls c) (onLoadCalls c) (onErrorCalls c).

Definition reset (c : Component) : Component :=
  mkComponent (url c) (mountedRef c) 0 true None
              (objectUrl c) (mediaCache c) (fetches c) (timeouts c)
              (timer c) (revokedUrls c) (onLoadCalls c) (onErrorCalls c).

(** [loadMedia] up to its first [await]: either it is done, or it has
    called [fetch] and waits. *)
Inductive Started :=
| Finished (c : Component)
| Awaiting (c : Component).

Definition loadMedia_begin (c : Component) : Started :=
  if decide (url c = "") then Finished c
  else if negb (mountedRef c) then Finished c
  else
    match mediaCache c !! url c with
    | Some (mkItem _ u true) => Finished (onLoad (show u (error c) c))
    | _ =>
        if String.prefix "blob:" (url c)
        then Finished (onLoad (show (url c) (error c) c))
        else Awaiting (fetch c)
    end.

(** The delay of the retry that [catch] schedules, computed after
    [retryCount.current++]. *)
Definition retry_delay (retryCount : nat) : Z := 1000 * 2 ^ Z.of_nat retryCount.

(** [loadMedia] from the settled fetch on: the rest of [try], or
    [catch]. *)
Definition loadMedia_resume (r : Response) (c : Component) : Component :=
  match r with
  | ResponseOk b u =>
      if negb (mountedRef c) then revokeObjectURL u c
      else onLoad (show u None (cache_set (mkItem b u true) c))
  | ResponseError message =>
      if negb (mountedRef c) then c
      else
        let c1 := onError (show (objectUrl c) (Some message) c) in
        if decide (retryCount c1 < 2)%nat
        then
          let c2 := set_retryCount (S (retryCount c1)) c1 in
          setTimeout (retry_delay (retryCount c2)) c2
        else c1
  end.

(** The network, as the component meets it: the answer to its [n]-th
    call of [fetch]. *)
Definition loadMedia (network : nat → Response) (c : Component) : Component :=
  match loadMedia_begin c with
  | Finished c' => c'
  | Awaiting c' => loadMedia_resume (network (fetches c')) c'
  end.

(** The effect that runs when the component is given its [url]. *)
Definition request (network : nat → Response) (c : Component) : Component :=
  loadMedia network (reset c).

(** The waiting timer fires and calls [loadMedia]. *)
Definition fire (network : nat → Response) (c : Component) : Component :=
  if timer c then loadMedia network (timer_fired c) else c.

Fixpoint run (network : nat → Response) (fuel : nat) (c : Component) : Component :=
  match fuel with
  | O => c
  | S n => run network n (fire network c)
  end.

(** A component that has just been mounted with [u]. *)
Definition mounted (u : string) (cache : gmap string CacheItem) : Component :=
  mkComponent u true 0 true None "" cache 0 [] false [] 0 0.

End MediaContent.

(** ** Vocabulary of the statements *)
Module Vocabulary.
Import MediaCache.

(** The entry that [settle] stores for a fetch that came back ok. *)
Definition media_of (b : Blob) (nano ou : string) (now : Z) : CachedMedia :=
  mkMedia nano b ou true now 0.

(** [e] is the entry that [removeOldest] picks in [m]: the first one, in
    iteration order, among those with the smallest timestamp. *)
Definition first_oldest (e : string * CachedMedia)
    (m : list (string * CachedMedia)) : Prop :=
  ∃ l1 l2, m = l1 ++ e :: l2
    ∧ Forall (λ e', timestamp e.2 < timestamp e'.2) l1
    ∧ Forall (λ e', timestamp e.2 ≤ timestamp e'.2) l2.


(** No fetch of [k] is out. *)
Definition no_pending_for (k : string) (s : State) : bool :=
  forallb (λ f, match f_state f with
                | Pending => negb (bool_decide (f_url f = k))
                | _ => true
                end)
          (promises s).

(** A run in which [clear] is never called while a fetch of [k] is
    out. *)
Fixpoint run_at_rest (cfg : Config) (k : string) (evs : list Event) (s : State)
    : option State :=
  match evs with
  | [] => Some s
  | ev :: evs' =>
      match ev with
      | EClear => if no_pending_for k s then run_at_rest cfg k evs' (clear s) else None
      | _ => match exec cfg ev s with
             | Some s' => run_at_rest cfg k evs' s'
             | None => None
             end
      end
  end.

(** Every fetch of [k] that is out is the one registered for [k]. *)
Definition registered (k : string) (s : State) : Prop :=
  ∀ p, pending s p k → loadingPromises s !! k = Some p.

(** The window runs no interval except the one the field names. *)
Definition timers_owned (s : State) : Prop :=
  intervals s = match cleanupInterval s with Some h => [h] | None => [] end.

Definition is_tick (ev : Event) : bool :=
  match ev with ETick _ _ => true | _ => false end.

(** The three keys of the eviction example and what their fetches
    bring. *)
Definition example_trace (tA tB tC : Z) : list Event :=
  [ ELoad "A"; ESettle 0 (FetchOk "a" "idA" "blob:A" tA);
    ELoad "B"; ESettle 1 (FetchOk "b" "idB" "blob:B" tB);
    ELoad "C"; ESettle 2 (FetchOk "c" "idC" "blob:C" tC) ].

(** How the promise of a fetch settles. *)
Definition settled_as (o : FetchOutcome) : Settled :=
  match o with
  | FetchOk b nano ou now => Fulfilled (media_of b nano ou now)
  | FetchFail err => Rejected err
  end.

(** Two states that differ at most in the cache and in the list of
    revoked object URLs. *)
Definition same_registry (s s' : State) : Prop :=
  loadingPromises s' = loadingPromises s
  ∧ promises s' = promises s
  ∧ cleanupInterval s' = cleanupInterval s
  ∧ intervals s' = intervals s
  ∧ nextHandle s' = nextHandle s.

(** Every registered promise is a fetch of its key that is still out. *)
Definition registry_sound (s : State) : Prop :=
  ∀ k p, loadingPromises s !! k = Some p → pending s p k.

(** [load] of [k] in [s] starts a fetch: it makes a new promise, a fetch
    of [k] that is out, and registers it. *)
Definition starts_fetch (k : string) (s : State) : Prop :=
  let n := length (promises s) in
  (load k s).2 = n
  ∧ promises (load k s).1 = promises s ++ [mkFetch k Pending]
  ∧ loadingPromises (load k s).1 !! k = Some n.

(** Events that neither register a fetch nor store an entry. *)
Definition stores_nothing (ev : Event) : bool :=
  match ev with
  | ELoad _ => false
  | ESettle _ (FetchOk _ _ _ _) => false
  | _ => true
  end.

(** The state of a new cache after the events [evs]. *)
Definition after (cfg : Config) (evs : list Event) : State :=
  default new (run cfg evs new).

(** The delays passed to [setTimeout] so far are those of the retries
    counted so far, and at most two retries are counted. *)
Definition delays_follow (c : MediaContent.Component) : Prop :=
  MediaContent.timeouts c
    = map MediaContent.retry_delay (seq 1 (MediaContent.retryCount c))
  ∧ (MediaContent.retryCount c ≤ 2)%nat.

End Vocabulary.

(** ** What the loader component shows

    The rest of [MediaContent.tsx]: what the component renders, the
    button of the error view, the [onError] of the media element, and
    the cleanup of the mount effect. *)
Module MediaView.
Import MediaContent.

Inductive MediaType := image | video | gif.

Inductive View :=
| ErrorView (message : string)
| LoadingView
| VideoView (src : string)
| ImageView (src : string).

(** [if (error)] on a [string | null]: the empty string counts as no
    error. *)
Definition truthy (o : option string) : bool :=
  match o with
  | Some e => if decide (e = "") then false else true
  | None => false
  end.

Definition render (type : MediaType) (c : Component) : View :=
  if truthy (error c) then ErrorView (default "" (error c))
  else if isLoading c then LoadingView
  else match type with
       | video | gif => VideoView (objectUrl c)
       | image => ImageView (objectUrl c)
       end.

Definition setError (e : option string) (c : Component) : Component :=
  mkComponent (url c) (mountedRef c) (retryCount c) (isLoading c) e
              (objectUrl c) (mediaCache c) (fetches c) (timeouts c) (timer c)
              (revokedUrls c) (onLoadCalls c) (onErrorCalls c).

(** The [onClick] of the Retry button. *)
Definition retryClick (network : nat → Response) (c : Component) : Component :=
  loadMedia network (set_retryCount 0 c).

(** The [onError] of the [img] or [video] element. *)
Definition elementError (type : MediaType) (c : Component) : Component :=
  onError (setError (Some match type with
                          | video | gif => "Failed to load video"
                          | image => "Failed to load image"
                          end) c).

(** The cleanup of the mount effect.  Aborting the request makes the
    fetch that is out come back with an error. *)
Definition unmount (c : Component) : Component :=
  mkComponent (url c) false (retryCount c) (isLoading c) (error c)
              (objectUrl c) (mediaCache c) (fetches c) (timeouts c) (timer c)
              (revokedUrls c) (onLoadCalls c) (onErrorCalls c).

End MediaView.

(** ** The media element of the reader

    [media/MediaContent.tsx] hands the [url] to an [img] or [video]
    element and follows its events.  The element is rendered only when
    no error is shown, and React sets [mediaRef.current] to the element
    when it enters the tree and to [null] when it leaves: after every
    update of the state the ref is an element exactly when the view
    holds one. *)
Module SimpleMedia.

Record Component := mkComponent {
  url : string;
  isLoaded : bool;
  error : option string;
  mountedRef : bool;
  mediaRef : bool;
  srcAssignments : nat;
  onLoadCalls : nat;
  onErrorCalls : nat
}.

Inductive View :=
| ErrorView (message : string)
| MediaView (src : string) (spinner : bool).

Definition render (c : Component) : View :=
  if MediaView.truthy (error c) then ErrorView (default "" (error c))
  else MediaView (url c) (negb (isLoaded c)).

(** React renders the new state and attaches or detaches the ref. *)
Definition commit (c : Component) : Component :=
  mkComponent (url c) (isLoaded c) (error c) (mountedRef c)
              (match render c with
               | MediaView _ _ => mountedRef c
               | ErrorView _ => false
               end)
              (srcAssignments c) (onLoadCalls c) (onErrorCalls c).

Definition mount (u : string) : Component :=
  commit (mkComponent u false None true false 0 0 0).

Definition unmount (c : Component) : Component :=
  mkComponent (url c) (isLoaded c) (error c) false false
              (srcAssignments c) (onLoadCalls c) (onErrorCalls c).

(** The effect on [url]: the parent passes another [url]. *)
Definition urlChange (u : string) (c : Component) : Component :=
  commit (mkComponent u false None (mountedRef c) (mediaRef c)
                      (srcAssignments c) (onLoadCalls c) (onErrorCalls c)).

Definition handleLoad (c : Component) : Component :=
  if mountedRef c
  then commit (mkComponent (url c) true (error c) (mountedRef c) (mediaRef c)
                           (srcAssignments c) (S (onLoadCalls c)) (onErrorCalls c))
  else c.

Definition handleError (c : Component) : Component :=
  if mountedRef c
  then commit (mkComponent (url c) (isLoaded c) (Some "Failed to load media")
                           (mountedRef c) (mediaRef c)
                           (srcAssignments c) (onLoadCalls c) (S (onErrorCalls c)))
  else c.

Definition handleRetry (c : Component) : Component :=
  if mediaRef c
  then commit (mkComponent (url c) false None (mountedRef c) (mediaRef c)
                           (S (srcAssignments c)) (onLoadCalls c) (onErrorCalls c))
  else c.

(** What can happen to a mounted component. *)
Inductive Event :=
| ELoad
| EError
| ERetry
| EUrl (u : string)
| EUnmount.

Definition exec (ev : Event) (c : Component) : Component :=
  match ev with
  | ELoad => handleLoad c
  | EError => handleError c
  | ERetry => handleRetry c
  | EUrl u => urlChange u c
  | EUnmount => unmount c
  end.

Definition run (evs : list Event) (c : Component) : Component :=
  foldl (λ c ev, exec ev c) c evs.

End SimpleMedia.

(** ** The pages of the reader

    The handlers of the [Reader] component of the comic view: the page
    that is shown, out of [totalPages], and the panels of it that have
    loaded. *)
Module Reader.

Record State := mkState {
  currentPageIndex : Z;
  totalPages : nat;
  loadedPanels : gset string
}.

Definition handlePanelLoad (panelId : string) (s : State) : State :=
  mkState (currentPageIndex s) (totalPages s) (loadedPanels s ∪ {[panelId]}).

Definition handlePrevPage (s : State) : State :=
  if decide (currentPageIndex s > 0)
  then mkState (currentPageIndex s - 1) (totalPages s) ∅
  else s.

Definition handleNextPage (s : State) : State :=
  if decide (currentPageIndex s < Z.of_nat (totalPages s) - 1)
  then mkState (currentPageIndex s + 1) (totalPages s) ∅
  else s.

Inductive Click := Prev | Next.

Definition click (b : Click) (s : State) : State :=
  match b with
  | Prev => handlePrevPage s
  | Next => handleNextPage s
  end.

End Reader.

(** ** The store of comics

    The actions of [useComicStore] that edit the list of published
    comics and the pages of the current comic.  The declarations of
    [Comic] and [Panel] are not among the sources: the store reads the
    [id] of both and the [pages] of a comic, and the other fields are
    carried along as one component [rest]. *)
Module ComicStore.

Module Panel.
Record t {R : Type} := mk { id : string; rest : R }.
Arguments t : clear implicits.
End Panel.

Module Comic.
Record t {P R : Type} := mk { id : string; pages : list (list P); rest : R }.
Arguments t : clear implicits.
End Comic.

Section store.
Context {PR CR : Type}.
Abbreviation Panel := (Panel.t PR).
Abbreviation Comic := (Comic.t Panel CR).

Record Store := mkStore {
  publishedComics : list Comic;
  currentComic : option Comic;
  currentPageIndex : Z;
  isCreatorMode : bool
}.

(** [{ ...comic, pages }]. *)
Definition with_pages (p : list (list Panel)) (c : Comic) : Comic :=
  Comic.mk _ _ (Comic.id c) p (Comic.rest c).

(** [Array.prototype.findIndex], [None] for [-1]. *)
Fixpoint findIndex {A} (f : A → bool) (l : list A) : option nat :=
  match l with
  | [] => None
  | x :: l' => if f x then Some 0%nat else S <$> findIndex f l'
  end.

(** [Array.prototype.filter] with the index passed to the callback. *)
Fixpoint filter_indexed {A} (f : A → nat → bool) (i : nat) (l : list A) : list A :=
  match l with
  | [] => []
  | x :: l' => if f x i then x :: filter_indexed f (S i) l'
               else filter_indexed f (S i) l'
  end.

Definition publishComic (st : Store) : Store :=
  match currentComic st with
  | None => st
  | Some cur =>
      let existingIndex :=
        findIndex (λ c, bool_decide (Comic.id c = Comic.id cur)) (publishedComics st) in
      let updatedComics :=
        match existingIndex with
        | Some i => <[i := cur]> (publishedComics st)
        | None => publishedComics st ++ [cur]
        end in
      mkStore updatedComics None 0 false
  end.

Definition unpublishComic (comicId : string) (st : Store) : Store :=
  mkStore (filter (λ c, Comic.id c ≠ comicId) (publishedComics st))
          (currentComic st) (currentPageIndex st) (isCreatorMode st).

Definition addPage (st : Store) : Store :=
  match currentComic st with
  | None => st
  | Some cur =>
      let newPages := Comic.pages cur ++ [[]] in
      mkStore (publishedComics st) (Some (with_pages newPages cur))
              (Z.of_nat (length newPages) - 1) (isCreatorMode st)
  end.

Definition removePage (pageIndex : Z) (st : Store) : Store :=
  match currentComic st with
  | None => st
  | Some cur =>
      if decide (length (Comic.pages cur) ≤ 1)%nat then st
      else
        let newPages :=
          filter_indexed (λ _ i, bool_decide (Z.of_nat i ≠ pageIndex)) 0
                         (Comic.pages cur) in
        mkStore (publishedComics st) (Some (with_pages newPages cur))
                (Z.min (currentPageIndex st) (Z.of_nat (length newPages) - 1))
                (isCreatorMode st)
  end.

(** What an action that indexes the pages comes to: a new state, a
    [TypeError] because the page is [undefined], or a page that now
    holds [undefined] where a panel should be. *)
Inductive Outcome :=
| Sets (st : Store)
| ThrowsTypeError
| StoresUndefined.

Definition set_pages (p : list (list Panel)) (cur : Comic) (st : Store) : Store :=
  mkStore (publishedComics st) (Some (with_pages p cur))
          (currentPageIndex st) (isCreatorMode st).

(** [pageIndex] is a position in the array of pages. *)
Definition removePanel (panelId : string) (pageIndex : nat) (st : Store) : Outcome :=
  match currentComic st with
  | None => Sets st
  | Some cur =>
      match Comic.pages cur !! pageIndex with
      | None => ThrowsTypeError
      | Some page =>
          let page' := filter (λ p, Panel.id p ≠ panelId) page in
          Sets (set_pages (<[pageIndex := page']> (Comic.pages cur)) cur st)
      end
  end.

(** [splice(start, 1)]: what is taken out, and what is left. *)
Definition splice_out {A} (start : nat) (l : list A) : option A * list A :=
  (l !! start, delete start l).

(** [splice(start, 0, x)]. *)
Definition splice_in {A} (start : nat) (x : A) (l : list A) : list A :=
  take start l ++ x :: drop start l.

(** [startIndex] and [endIndex] are positions as a drag hands them
    over. *)
Definition reorderPanels (startIndex endIndex pageIndex : nat) (st : Store) : Outcome :=
  match currentComic st with
  | None => Sets st
  | Some cur =>
      match Comic.pages cur !! pageIndex with
      | None => ThrowsTypeError
      | Some page =>
          match splice_out startIndex page with
          | (Some removed, others) =>
              Sets (set_pages (<[pageIndex := splice_in endIndex removed others]>
                                 (Comic.pages cur)) cur st)
          | (None, _) => StoresUndefined
          end
      end
  end.

Definition toggleCreatorMode (st : Store) : Store :=
  mkStore (publishedComics st) (currentComic st) (currentPageIndex st)
          (negb (isCreatorMode st)).
End store.

Arguments Store : clear implicits.
Arguments Outcome : clear implicits.

End ComicStore.

(** ** Properties of the ordered map *)
Module JsMapFacts.
Section facts.
Context {V : Type}.
Implicit Types (m : list (string * V)) (k : string) (v : V).

Lemma jm_get_delete k m : jm_get k (jm_delete k m) = None.
Proof.
  induction m as [|[k' v'] m IH]; simpl; [done|].
  destruct (decide (k = k')) as [->|Hne]; simpl; [done|].
  by rewrite decide_False.
Qed.

Lemma jm_get_delete_ne k k' m :
  k ≠ k' → jm_get k (jm_delete k' m) = jm_get k m.
Proof.
  intros Hne. induction m as [|[k2 v2] m IH]; simpl; [done|].
  destruct (decide (k' = k2)) as [->|Hne2]; simpl.
  - by rewrite decide_False.
  - by rewrite IH.
Qed.

Lemma jm_get_set k v m : jm_get k (jm_set k v m) = Some v.
Proof.
  induction m as [|[k' v'] m IH]; simpl.
  - by rewrite decide_True.
  - destruct (decide (k = k')) as [->|Hne]; simpl.
    + by rewrite decide_True.
    + by rewrite decide_False.
Qed.

Lemma jm_get_set_ne k k' v m :
  k ≠ k' → jm_get k (jm_set k' v m) = jm_get k m.
Proof.
  intros Hne. induction m as [|[k2 v2] m IH]; simpl.
  - by rewrite decide_False.
  - destruct (decide (k' = k2)) as [->|Hne2]; simpl.
    + by rewrite !decide_False.
    + by rewrite IH.
Qed.

Lemma jm_get_Some_elem k v m : jm_get k m = Some v → (k, v) ∈ m.
Proof.
  induction m as [|[k' v'] m IH]; simpl; [done|].
  destruct (decide (k = k')) as [->|Hne].
  - intros [= ->]. apply list_elem_of_here.
  - intros H. apply list_elem_of_further. auto.
Qed.

Lemma jm_get_elem_is_Some k v m : (k, v) ∈ m → is_Some (jm_get k m).
Proof.
  induction m as [|[k' v'] m IH]; simpl.
  - intros H. by apply not_elem_of_nil in H.
  - intros H. destruct (decide (k = k')) as [->|Hne]; [eauto|].
    apply elem_of_cons in H as [[= -> ->]|H]; [done|auto].
Qed.

Lemma jm_get_None_fst k m : jm_get k m = None ↔ k ∉ m.*1.
Proof.
  induction m as [|[k' v'] m IH]; simpl.
  - split; [intros _; apply not_elem_of_nil|done].
  - rewrite not_elem_of_cons. destruct (decide (k = k')) as [->|Hne].
    + split; [done|]. intros [? _]. done.
    + rewrite IH. tauto.
Qed.

Lemma jm_delete_length k m : (length (jm_delete k m) ≤ length m)%nat.
Proof.
  induction m as [|[k' v'] m IH]; simpl; [lia|].
  destruct (decide (k = k')); simpl; lia.
Qed.

Lemma jm_delete_length_lt k m :
  is_Some (jm_get k m) → (length (jm_delete k m) < length m)%nat.
Proof.
  induction m as [|[k' v'] m IH]; simpl.
  - intros [? [=]].
  - destruct (decide (k = k')) as [->|Hne]; simpl.
    + intros _. pose proof (jm_delete_length k' m). lia.
    + intros H. apply IH in H. lia.
Qed.

Lemma jm_set_length k v m : (length (jm_set k v m) ≤ S (length m))%nat.
Proof.
  induction m as [|[k' v'] m IH]; simpl; [lia|].
  destruct (decide (k = k')); simpl; lia.
Qed.

Lemma jm_delete_fst_subseteq k m : (jm_delete k m).*1 ⊆ m.*1.
Proof.
  induction m as [|[k' v'] m IH]; simpl; [done|].
  destruct (decide (k = k')); simpl.
  - intros x Hx. apply list_elem_of_further. by apply IH.
  - intros x. rewrite !elem_of_cons. intros [->|H]; [by left|]. right. by apply IH.
Qed.

Lemma jm_delete_wf k m : jm_wf m → jm_wf (jm_delete k m).
Proof.
  unfold jm_wf. induction m as [|[k' v'] m IH]; simpl; [done|].
  rewrite NoDup_cons. intros [Hnin Hnd].
  destruct (decide (k = k')); simpl; [auto|].
  rewrite NoDup_cons. split; [|auto].
  intros Hin. apply Hnin. by apply (jm_delete_fst_subseteq k m).
Qed.

Lemma jm_set_fst k v m :
  (jm_set k v m).*1 = if decide (k ∈ m.*1) then m.*1 else m.*1 ++ [k].
Proof.
  induction m as [|[k' v'] m IH].
  - cbn [jm_set fmap list_fmap fst]. destruct (decide (k ∈ [])) as [Hin|]; [|done].
    by apply not_elem_of_nil in Hin.
  - cbn [jm_set]. destruct (decide (k = k')) as [->|Hne].
    + rewrite decide_True; [done|]. rewrite fmap_cons. apply list_elem_of_here.
    + rewrite !fmap_cons, IH. cbn [fst].
      destruct (decide (k ∈ m.*1)) as [Hin|Hnin].
      * rewrite decide_True; [done|by apply list_elem_of_further].
      * rewrite decide_False; [done|]. rewrite not_elem_of_cons. done.
Qed.

Lemma jm_set_wf k v m : jm_wf m → jm_wf (jm_set k v m).
Proof.
  unfold jm_wf. rewrite jm_set_fst. intros Hnd.
  destruct (decide (k ∈ m.*1)); [done|].
  apply NoDup_app. split; [done|]. split.
  - intros x Hx Hk. apply list_elem_of_singleton in Hk as ->. done.
  - apply NoDup_singleton.
Qed.

(** On a well-formed map, the entry at a position is the entry of its
    key. *)
Lemma jm_get_middle k v (l1 l2 : list (string * V)) :
  jm_wf (l1 ++ (k, v) :: l2) → jm_get k (l1 ++ (k, v) :: l2) = Some v.
Proof.
  unfold jm_wf. induction l1 as [|[k' v'] l1 IH]; simpl.
  - intros _. by rewrite decide_True.
  - rewrite NoDup_cons. intros [Hnin Hnd].
    destruct (decide (k = k')) as [->|Hne]; [|auto].
    exfalso. apply Hnin. rewrite fmap_app. apply elem_of_app. right.
    simpl. apply list_elem_of_here.
Qed.

Lemma jm_delete_middle k v (l1 l2 : list (string * V)) :
  jm_wf (l1 ++ (k, v) :: l2) → jm_delete k (l1 ++ (k, v) :: l2) = l1 ++ l2.
Proof.
  unfold jm_wf. induction l1 as [|[k' v'] l1 IH]; simpl.
  - rewrite NoDup_cons. intros [Hnin _]. rewrite decide_True; [|done].
    induction l2 as [|[k2 v2] l2 IH2]; simpl; [done|].
    simpl in Hnin. rewrite not_elem_of_cons in Hnin. destruct Hnin as [Hne Hnin].
    rewrite decide_False; [|done]. f_equal. auto.
  - rewrite NoDup_cons. intros [Hnin Hnd].
    destruct (decide (k = k')) as [->|Hne].
    + exfalso. apply Hnin. rewrite fmap_app. apply elem_of_app. right.
      simpl. apply list_elem_of_here.
    + f_equal. auto.
Qed.
End facts.
End JsMapFacts.

(** ** Properties of the cache manager *)
Module CacheProps.
Import MediaCache Vocabulary JsMapFacts.

Lemma foldl_keeps {A B} (P : A → Prop) (f : A → B → A) (l : list B) (a : A) :
  (∀ a b, P a → P (f a b)) → P a → P (foldl f a l).
Proof. intros Hf. revert a. induction l as [|b l IH]; simpl; auto. Qed.

(** *** [removeOldest] picks the first entry of smallest timestamp *)

Lemma array_sort_nil {A} (cmp : A → A → Z) (l : list A) :
  array_sort cmp l = [] → l = [].
Proof.
  destruct l as [|x l]; [done|]. simpl.
  destruct (array_sort cmp l) as [|y t]; simpl; [done|].
  destruct (decide (cmp x y ≤ 0)); done.
Qed.

Lemma first_oldest_lower e m :
  first_oldest e m → Forall (λ e', timestamp e.2 ≤ timestamp e'.2) m.
Proof.
  intros (l1 & l2 & -> & H1 & H2). apply Forall_app. split.
  - eapply Forall_impl; [exact H1|]. simpl. intros; lia.
  - apply Forall_cons. split; [lia|done].
Qed.

Lemma array_sort_first_oldest m e rest :
  array_sort by_timestamp m = e :: rest → first_oldest e m.
Proof.
  revert e rest. induction m as [|x m IH]; intros e rest; simpl; [done|].
  destruct (array_sort by_timestamp m) as [|h t] eqn:Hs; simpl.
  - intros [= <- <-]. apply array_sort_nil in Hs as ->.
    exists [], []. by repeat split.
  - specialize (IH h t eq_refl). unfold by_timestamp at 1.
    destruct (decide (timestamp x.2 - timestamp h.2 ≤ 0)) as [Hle|Hgt].
    + intros [= <- <-]. exists [], m. repeat split; [done|].
      eapply Forall_impl; [exact (first_oldest_lower _ _ IH)|].
      simpl. intros; lia.
    + intros [= <- <-]. destruct IH as (l1 & l2 & -> & H1 & H2).
      exists (x :: l1), l2. repeat split; [|done].
      apply Forall_cons. split; [lia|done].
Qed.

(** *** What the methods do to the cache *)

Lemma remove_length url s :
  (length (cache (remove url s)) ≤ length (cache s))%nat.
Proof.
  unfold remove. destruct (jm_get url (cache s)); simpl; [|lia].
  apply jm_delete_length.
Qed.

Lemma remove_wf url s : jm_wf (cache s) → jm_wf (cache (remove url s)).
Proof.
  unfold remove. destruct (jm_get url (cache s)); simpl; [|done].
  apply jm_delete_wf.
Qed.

Lemma removeOldest_length s :
  cache s ≠ [] → (length (cache (removeOldest s)) < length (cache s))%nat.
Proof.
  intros Hne. unfold removeOldest.
  destruct (array_sort by_timestamp (cache s)) as [|[k old] t] eqn:Hs.
  - by apply array_sort_nil in Hs.
  - apply array_sort_first_oldest in Hs as (l1 & l2 & Hm & _).
    unfold remove. simpl.
    assert (is_Some (jm_get k (cache s))) as Hsome.
    { apply (jm_get_elem_is_Some k old). rewrite Hm.
      apply elem_of_app. right. apply list_elem_of_here. }
    destruct Hsome as [item Hitem]. rewrite Hitem. simpl.
    apply jm_delete_length_lt. eauto.
Qed.

Lemma removeOldest_wf s : jm_wf (cache s) → jm_wf (cache (removeOldest s)).
Proof.
  unfold removeOldest. destruct (array_sort by_timestamp (cache s)); [done|].
  apply remove_wf.
Qed.

Lemma removeOldest_spec s :
  jm_wf (cache s) → cache s ≠ [] →
  ∃ k old, first_oldest (k, old) (cache s)
    ∧ cache (removeOldest s) = jm_delete k (cache s)
    ∧ revoked (removeOldest s) = revoked s ++ [objectUrl old]
    ∧ loadingPromises (removeOldest s) = loadingPromises s
    ∧ promises (removeOldest s) = promises s.
Proof.
  intros Hwf Hne. unfold removeOldest.
  destruct (array_sort by_timestamp (cache s)) as [|[k old] t] eqn:Hs.
  - by apply array_sort_nil in Hs.
  - apply array_sort_first_oldest in Hs. exists k, old. split; [done|].
    destruct Hs as (l1 & l2 & Hm & _). unfold remove. simpl.
    rewrite Hm in Hwf |- *. rewrite (jm_get_middle k old l1 l2 Hwf). done.
Qed.

Section invariants.
Variable cfg : Config.

Lemma run_keeps (P : State → Prop) :
  (∀ ev s s', P s → exec cfg ev s = Some s' → P s') →
  ∀ evs s s', P s → run cfg evs s = Some s' → P s'.
Proof.
  intros Hstep evs. induction evs as [|ev evs IH]; simpl; intros s s' HP.
  - by intros [= <-].
  - destruct (exec cfg ev s) as [s1|] eqn:He; [|done]. eauto.
Qed.

Lemma run_app evs1 evs2 s :
  run cfg (evs1 ++ evs2) s =
  match run cfg evs1 s with Some s1 => run cfg evs2 s1 | None => None end.
Proof.
  revert s. induction evs1 as [|ev evs1 IH]; simpl; intros s; [done|].
  destruct (exec cfg ev s); [apply IH|done].
Qed.

Lemma get_cache_length url now s :
  (length (cache (get cfg url now s).1) ≤ length (cache s))%nat.
Proof.
  unfold get. destruct (loadingPromises s !! url); simpl; [lia|].
  destruct (jm_get url (cache s)); simpl; [|lia].
  destruct (decide _); simpl; [apply remove_length|lia].
Qed.

Lemma get_wf url now s : jm_wf (cache s) → jm_wf (cache (get cfg url now s).1).
Proof.
  unfold get. destruct (loadingPromises s !! url); simpl; [done|].
  destruct (jm_get url (cache s)); simpl; [|done].
  destruct (decide _); simpl; [apply remove_wf|done].
Qed.

Lemma load_cache url s : cache (load url s).1 = cache s.
Proof. unfold load. by destruct (loadingPromises s !! url). Qed.

Lemma sweep_length now s : (length (cache (sweep cfg now s)) ≤ length (cache s))%nat.
Proof.
  unfold sweep.
  apply (foldl_keeps (λ a, (length (cache a) ≤ length (cache s))%nat)); [|lia].
  intros a e Ha. destruct (decide _); [|done].
  pose proof (remove_length e.1 a). lia.
Qed.

Lemma sweep_wf now s : jm_wf (cache s) → jm_wf (cache (sweep cfg now s)).
Proof.
  intros Hwf. unfold sweep. apply (foldl_keeps (λ a, jm_wf (cache a))); [|done].
  intros a e Ha. destruct (decide _); [by apply remove_wf|done].
Qed.

Lemma settle_length p o s s' :
  (1 ≤ maxSize cfg)%nat →
  (length (cache s) ≤ maxSize cfg)%nat →
  settle cfg p o s = Some s' →
  (length (cache s') ≤ maxSize cfg)%nat.
Proof.
  intros Hpos Hle. unfold settle.
  destruct (promises s !! p) as [[url []]|]; try done.
  destruct o as [b nano ou now|err]; intros [= <-]; simpl; [|done].
  unfold jm_size. destruct (decide (maxSize cfg ≤ length (cache s))%nat) as [Hfull|Hroom].
  - assert (cache s ≠ []) as Hne by (intros Heq; rewrite Heq in Hfull; simpl in Hfull; lia).
    pose proof (removeOldest_length s Hne).
    pose proof (jm_set_length url (mkMedia nano b ou true now 0) (cache (removeOldest s))).
    lia.
  - pose proof (jm_set_length url (mkMedia nano b ou true now 0) (cache s)). lia.
Qed.

Lemma settle_wf p o s s' :
  jm_wf (cache s) → settle cfg p o s = Some s' → jm_wf (cache s').
Proof.
  intros Hwf. unfold settle.
  destruct (promises s !! p) as [[url []]|]; try done.
  destruct o as [b nano ou now|err]; intros [= <-]; simpl; [|done].
  apply jm_set_wf. destruct (decide _); [by apply removeOldest_wf|done].
Qed.

Lemma clear_cache s : cache (clear s) = [].
Proof.
  unfold clear.
  set (s1 := foldl (λ acc e, remove e.1 acc) s (cache s)).
  assert (cache s1 = []) as Hc.
  { assert (∀ (l : list (string * CachedMedia)) a k, k ∈ (cache (foldl (λ acc e, remove e.1 acc) a l)).*1 →
                     k ∈ (cache a).*1 ∧ k ∉ l.*1) as Hloop.
    { induction l as [|e l IH]; intros a k; simpl.
      - intros Hk. split; [done|apply not_elem_of_nil].
      - intros Hk. apply IH in Hk as [Hk Hnl].
        assert (k ∈ (cache a).*1 ∧ k ≠ e.1) as [Hka Hne].
        { unfold remove in Hk. destruct (jm_get e.1 (cache a)) eqn:Hg; simpl in Hk.
          - split; [by apply (jm_delete_fst_subseteq e.1)|].
            intros ->. apply jm_get_None_fst in Hk; [done|]. apply jm_get_delete.
          - split; [done|]. intros ->. by apply jm_get_None_fst in Hg. }
        split; [done|]. rewrite not_elem_of_cons. done. }
    destruct (cache s1) as [|[k v] t] eqn:Hs1; [done|]. exfalso.
    destruct (Hloop (cache s) s k) as [Hin Hnin]; [|done].
    fold s1. rewrite Hs1. simpl. apply list_elem_of_here. }
  destruct (cleanupInterval s1); simpl; done.
Qed.

Lemma exec_length ev s s' :
  (1 ≤ maxSize cfg)%nat →
  (length (cache s) ≤ maxSize cfg)%nat →
  exec cfg ev s = Some s' →
  (length (cache s') ≤ maxSize cfg)%nat.
Proof.
  intros Hpos Hle. destruct ev as [url now|url|url| |p o|h now]; simpl.
  - intros [= <-]. pose proof (get_cache_length url now s). lia.
  - intros [= <-]. by rewrite load_cache.
  - intros [= <-]. pose proof (remove_length url s). lia.
  - intros [= <-]. rewrite clear_cache. simpl. lia.
  - by apply settle_length.
  - destruct (decide _); [|done]. intros [= <-].
    pose proof (sweep_length now s). lia.
Qed.

Lemma exec_wf ev s s' :
  jm_wf (cache s) → exec cfg ev s = Some s' → jm_wf (cache s').
Proof.
  intros Hwf. destruct ev as [url now|url|url| |p o|h now]; simpl.
  - intros [= <-]. by apply get_wf.
  - intros [= <-]. by rewrite load_cache.
  - intros [= <-]. by apply remove_wf.
  - intros [= <-]. rewrite clear_cache. apply NoDup_nil_2.
  - by apply settle_wf.
  - destruct (decide _); [|done]. intros [= <-]. by apply sweep_wf.
Qed.

Lemma reachable_wf evs s : run cfg evs new = Some s → jm_wf (cache s).
Proof. apply (run_keeps (λ s, jm_wf (cache s)) exec_wf). apply NoDup_nil_2. Qed.

Lemma reachable_length evs s :
  (1 ≤ maxSize cfg)%nat → run cfg evs new = Some s →
  (length (cache s) ≤ maxSize cfg)%nat.
Proof.
  intros Hpos.
  apply (run_keeps (λ s, (length (cache s) ≤ maxSize cfg)%nat)).
  - intros ev s1 s2. by apply exec_length.
  - simpl. lia.
Qed.

(** What a fetch that comes back ok does when the cache is full. *)
Lemma settle_full p url b nano ou now s s' :
  jm_wf (cache s) → (1 ≤ maxSize cfg)%nat →
  (maxSize cfg ≤ jm_size (cache s))%nat →
  pending s p url →
  settle cfg p (FetchOk b nano ou now) s = Some s' →
  ∃ k old, first_oldest (k, old) (cache s)
    ∧ cache s' = jm_set url (media_of b nano ou now) (jm_delete k (cache s))
    ∧ revoked s' = revoked s ++ [objectUrl old].
Proof.
  intros Hwf Hpos Hfull Hp. unfold settle. rewrite Hp.
  rewrite decide_True; [|done]. intros [= <-]. simpl.
  assert (cache s ≠ []) as Hne.
  { intros Heq. unfold jm_size in Hfull. rewrite Heq in Hfull. simpl in Hfull. lia. }
  destruct (removeOldest_spec s Hwf Hne) as (k & old & Hold & Hc & Hr & _).
  exists k, old. rewrite Hc, Hr. done.
Qed.
End invariants.

(** C2. After any sequence of operations on a new cache the number of
    entries is at most [maxSize] (100 in the class).  A fetch that comes
    back ok while the cache is full first evicts the entry of smallest
    timestamp, among equals the one whose key was inserted first, and
    revokes its object URL, then stores its own entry.  With [maxSize = 2], loading
    A, B and C in the order of their timestamps leaves B and C, and the
    object URL of A is revoked. *)
Theorem C2_capacity_bound_oldest_evicted (cfg : Config) :
  (1 ≤ maxSize cfg)%nat →
  maxSize default_config = 100%nat
  ∧ (∀ evs s, run cfg evs new = Some s → (jm_size (cache s) ≤ maxSize cfg)%nat)
  ∧ (∀ evs s p url b nano ou now s',
        run cfg evs new = Some s →
        (maxSize cfg ≤ jm_size (cache s))%nat →
        pending s p url →
        settle cfg p (FetchOk b nano ou now) s = Some s' →
        ∃ k old, first_oldest (k, old) (cache s)
          ∧ cache s' = jm_set url (media_of b nano ou now) (jm_delete k (cache s))
          ∧ revoked s' = revoked s ++ [objectUrl old])
  ∧ (maxSize cfg = 2%nat →
     ∀ tA tB tC, tA ≤ tB → tB ≤ tC →
       ∃ s, run cfg (example_trace tA tB tC) new = Some s
         ∧ cache s = [("B", media_of "b" "idB" "blob:B" tB);
                      ("C", media_of "c" "idC" "blob:C" tC)]
         ∧ revoked s = ["blob:A"]).
Proof.
  intros Hpos. split; [done|]. split; [|split].
  - intros evs s Hrun. by apply (reachable_length cfg evs).
  - intros evs s p url b nano ou now s' Hrun Hfull Hp Hs.
    eapply settle_full; eauto using reachable_wf.
  - intros Hmax tA tB tC HAB HBC.
    destruct cfg as [ms t mr]. simpl in Hmax. subst ms.
    change (example_trace tA tB tC)
      with (take 5 (example_trace tA tB tC)
            ++ [ESettle 2 (FetchOk "c" "idC" "blob:C" tC)]).
    rewrite run_app.
    assert (∃ s5, run (mkConfig 2 t mr) (take 5 (example_trace tA tB tC)) new = Some s5
              ∧ cache s5 = [("A", media_of "a" "idA" "blob:A" tA);
                            ("B", media_of "b" "idB" "blob:B" tB)]
              ∧ revoked s5 = []
              ∧ pending s5 2 "C") as (s5 & -> & Hc & Hr & Hp).
    { eexists. split; [vm_compute; reflexivity|]. by repeat split. }
    simpl. unfold settle. rewrite Hp. rewrite Hc. simpl.
    unfold removeOldest. rewrite Hc. simpl. unfold by_timestamp. simpl.
    rewrite (decide_True (P := tA - tB ≤ 0)) by lia.
    unfold remove. rewrite Hc. simpl.
    eexists. split; [reflexivity|]. simpl. rewrite Hc, Hr. done.
Qed.

(** The theorem at a cache of two entries. *)
Lemma C2_witness :
  ∃ s, run (mkConfig 2 1800000 3) (example_trace 10 20 30) new = Some s
    ∧ (jm_size (cache s) ≤ 2)%nat
    ∧ (cache s).*1 = ["B"; "C"]
    ∧ revoked s = ["blob:A"].
Proof.
  destruct (C2_capacity_bound_oldest_evicted (mkConfig 2 1800000 3))
    as (_ & Hsize & _ & Hex); [simpl; lia|].
  destruct (Hex eq_refl 10 20 30) as (s & Hrun & Hc & Hr); [lia|lia|].
  exists s. split; [done|]. split; [by apply (Hsize _ _ Hrun)|].
  rewrite Hc, Hr. done.
Defined.

(** *** Methods that leave the registry of fetches alone *)

Lemma same_registry_refl s : same_registry s s.
Proof. by repeat split. Qed.

Lemma same_registry_trans s1 s2 s3 :
  same_registry s1 s2 → same_registry s2 s3 → same_registry s1 s3.
Proof.
  intros (?&?&?&?&?) (?&?&?&?&?). repeat split; congruence.
Qed.

Lemma remove_registry url s : same_registry s (remove url s).
Proof.
  unfold remove. destruct (jm_get url (cache s)); [|apply same_registry_refl].
  by repeat split.
Qed.

Lemma removeOldest_registry s : same_registry s (removeOldest s).
Proof.
  unfold removeOldest. destruct (array_sort _ _); [apply same_registry_refl|].
  apply remove_registry.
Qed.

Lemma remove_revoked_mono url s u : u ∈ revoked s → u ∈ revoked (remove url s).
Proof.
  unfold remove. destruct (jm_get url (cache s)); simpl; [|done].
  intros H. apply elem_of_app. by left.
Qed.

Lemma get_registry cfg url now s : same_registry s (get cfg url now s).1.
Proof.
  unfold get. destruct (loadingPromises s !! url); [apply same_registry_refl|].
  destruct (jm_get url (cache s)); [|apply same_registry_refl].
  destruct (decide _); [apply remove_registry|apply same_registry_refl].
Qed.

Lemma sweep_registry cfg now s : same_registry s (sweep cfg now s).
Proof.
  unfold sweep. apply (foldl_keeps (same_registry s)); [|apply same_registry_refl].
  intros a e Ha. destruct (decide _); [|done].
  eapply same_registry_trans; [exact Ha|apply remove_registry].
Qed.

Lemma clear_loop_registry s :
  same_registry s (foldl (λ acc e, remove e.1 acc) s (cache s)).
Proof.
  apply (foldl_keeps (same_registry s)); [|apply same_registry_refl].
  intros a e Ha. eapply same_registry_trans; [exact Ha|apply remove_registry].
Qed.

Lemma clear_loadingPromises s : loadingPromises (clear s) = ∅.
Proof. done. Qed.

Lemma clear_promises s : promises (clear s) = promises s.
Proof.
  unfold clear. destruct (clear_loop_registry s) as (_ & Hp & _).
  destruct (cleanupInterval _); simpl; done.
Qed.

(** *** Coalescing *)

Lemma no_pending_for_spec k s p : no_pending_for k s = true → ¬ pending s p k.
Proof.
  unfold no_pending_for, pending. intros Hall Hp.
  rewrite forallb_forall in Hall. apply list_elem_of_lookup_2 in Hp.
  apply list_elem_of_In in Hp. apply Hall in Hp. simpl in Hp.
  by rewrite bool_decide_eq_true_2 in Hp.
Qed.

Lemma pending_lt s p url : pending s p url → (p < length (promises s))%nat.
Proof. unfold pending. intros H. by apply lookup_lt_Some in H. Qed.

Lemma load_registered k url s : registered k s → registered k (load url s).1.
Proof.
  intros Hreg. unfold load.
  destruct (loadingPromises s !! url) as [p0|] eqn:Hl; [done|]. simpl.
  intros q. unfold pending. simpl. intros Hq.
  destruct (decide (q < length (promises s))%nat) as [Hlt|Hge].
  - rewrite lookup_app_l in Hq by done.
    assert (k ≠ url) as Hne.
    { intros ->. specialize (Hreg q Hq). congruence. }
    rewrite lookup_insert_ne by done. by apply Hreg.
  - rewrite lookup_app_r in Hq by lia.
    destruct (q - length (promises s))%nat as [|n] eqn:Hd; [|done].
    simpl in Hq. injection Hq as <-.
    assert (q = length (promises s)) as -> by lia.
    apply lookup_insert_eq.
Qed.

Lemma settle_registered cfg k p o s s' :
  registered k s → settle cfg p o s = Some s' → registered k s'.
Proof.
  intros Hreg. unfold settle.
  destruct (promises s !! p) as [[url []]|] eqn:Hp; try done.
  assert (∀ s0 st q,
            same_registry s s0 →
            <[p := mkFetch url st]> (promises s0) !! q = Some (mkFetch k Pending) →
            st ≠ Pending →
            delete url (loadingPromises s0) !! k = Some q) as Hkey.
  { intros s0 st q (Hl & Hps & _) Hq Hst. rewrite Hl, Hps in *.
    destruct (decide (q = p)) as [->|Hne].
    - rewrite list_lookup_insert_eq in Hq by (by apply lookup_lt_Some in Hp).
      congruence.
    - rewrite list_lookup_insert_ne in Hq by done.
      assert (k ≠ url) as Hneu.
      { intros ->. pose proof (Hreg q Hq). pose proof (Hreg p Hp). congruence. }
      rewrite lookup_delete_ne by done. by apply Hreg. }
  destruct o as [b nano ou now|err]; intros [= <-]; intros q; unfold pending; simpl;
    intros Hq.
  - destruct (decide _).
    + eapply (Hkey (removeOldest s)); [|exact Hq|done].
      apply removeOldest_registry.
    + eapply (Hkey s); [apply same_registry_refl|exact Hq|done].
  - eapply (Hkey s); [apply same_registry_refl|exact Hq|done].
Qed.

Lemma same_registry_registered k s s' :
  same_registry s s' → registered k s → registered k s'.
Proof.
  intros (Hl & Hp & _) Hreg q. unfold pending. rewrite Hl, Hp. apply Hreg.
Qed.

Lemma run_at_rest_registered cfg k evs s s' :
  registered k s → run_at_rest cfg k evs s = Some s' → registered k s'.
Proof.
  revert s. induction evs as [|ev evs IH]; simpl; intros s Hreg.
  { by intros [= <-]. }
  destruct ev as [url now|url|url| |p o|h now]; simpl.
  - apply IH. eapply same_registry_registered; [apply get_registry|done].
  - apply IH. by apply load_registered.
  - apply IH. eapply same_registry_registered; [apply remove_registry|done].
  - destruct (no_pending_for k s) eqn:Hnp; [|done]. apply IH.
    intros q Hq. exfalso. unfold pending in Hq. rewrite clear_promises in Hq.
    by eapply no_pending_for_spec.
  - destruct (settle cfg p o s) as [s1|] eqn:Hs; [|done].
    apply IH. by eapply settle_registered.
  - destruct (decide _); [|done]. apply IH.
    eapply same_registry_registered; [apply sweep_registry|done].
Qed.

Lemma new_registered k : registered k new.
Proof. intros p. unfold pending. simpl. done. Qed.

(** A run at rest is a run. *)
Lemma run_at_rest_run cfg k evs s s' :
  run_at_rest cfg k evs s = Some s' → run cfg evs s = Some s'.
Proof.
  revert s. induction evs as [|ev evs IH]; simpl; intros s; [done|].
  destruct ev as [url now|url|url| |p o|h now]; simpl; try apply IH.
  - destruct (no_pending_for k s); [apply IH|done].
  - destruct (settle cfg p o s); [apply IH|done].
  - destruct (decide _); [apply IH|done].
Qed.

(** A promise that has settled keeps its outcome. *)
Lemma exec_settled_stable cfg ev s s' p f :
  promises s !! p = Some f → f_state f ≠ Pending →
  exec cfg ev s = Some s' → promises s' !! p = Some f.
Proof.
  intros Hp Hf. destruct ev as [url now|url|url| |q o|h now]; simpl.
  - intros [= <-]. destruct (get_registry cfg url now s) as (_ & -> & _). done.
  - intros [= <-]. unfold load. destruct (loadingPromises s !! url); [done|].
    simpl. rewrite lookup_app_l; [done|]. by apply lookup_lt_Some in Hp.
  - intros [= <-]. destruct (remove_registry url s) as (_ & -> & _). done.
  - intros [= <-]. by rewrite clear_promises.
  - unfold settle. destruct (promises s !! q) as [[url []]|] eqn:Hq; try done.
    assert (q ≠ p) as Hne.
    { intros ->. rewrite Hp in Hq. injection Hq as ->. done. }
    destruct o as [b nano ou now|err]; intros [= <-]; simpl.
    + rewrite list_lookup_insert_ne by done.
      destruct (decide _); [|done].
      by destruct (removeOldest_registry s) as (_ & -> & _).
    + by rewrite list_lookup_insert_ne.
  - destruct (decide _); [|done]. intros [= <-].
    destruct (sweep_registry cfg now s) as (_ & -> & _). done.
Qed.

Lemma run_settled_stable cfg evs s s' p f :
  promises s !! p = Some f → f_state f ≠ Pending →
  run cfg evs s = Some s' → promises s' !! p = Some f.
Proof.
  intros Hp Hf.
  apply (run_keeps cfg (λ s, promises s !! p = Some f)); [|done].
  intros ev s1 s2 H1. by apply exec_settled_stable.
Qed.

Lemma settle_outcome cfg p url o s s' :
  pending s p url → settle cfg p o s = Some s' →
  promises s' !! p = Some (mkFetch url (settled_as o))
  ∧ loadingPromises s' = delete url (loadingPromises s)
  ∧ match o with
    | FetchOk b nano ou now => jm_get url (cache s') = Some (media_of b nano ou now)
    | FetchFail _ => cache s' = cache s ∧ revoked s' = revoked s
    end.
Proof.
  intros Hp. unfold settle. rewrite Hp. pose proof (pending_lt _ _ _ Hp) as Hlt.
  destruct o as [b nano ou now|err]; intros [= <-]; simpl.
  - assert (∀ s0, same_registry s s0 → promises s0 = promises s
                  ∧ loadingPromises s0 = loadingPromises s) as Hsame.
    { by intros s0 (? & ? & _). }
    destruct (decide _).
    + destruct (Hsame (removeOldest s)) as [-> ->];
        [apply removeOldest_registry|].
      rewrite list_lookup_insert_eq by done. by rewrite jm_get_set.
    + rewrite list_lookup_insert_eq by done. by rewrite jm_get_set.
  - rewrite list_lookup_insert_eq by done. done.
Qed.

(** C1, amended. As long as [clear] is not called while a fetch of [k]
    is out (it may be called while fetches of other keys are out): a
    fetch of [k] that has not come back is the only one for [k], it is
    the one registered for [k], and every [load] and [get] of [k] returns
    its promise without starting a fetch and without touching the state.
    When the fetch comes back the promise settles once, to the stored
    media object or to the failure, and keeps that outcome whatever
    happens later. *)
Theorem C1_coalescing_while_registered (cfg : Config) evs s k p :
  run_at_rest cfg k evs new = Some s →
  pending s p k →
  (∀ q, pending s q k → q = p)
  ∧ loadingPromises s !! k = Some p
  ∧ load k s = (s, p)
  ∧ (∀ now, get cfg k now s = (s, GetLoading p))
  ∧ (∀ o s', settle cfg p o s = Some s' →
       promises s' !! p = Some (mkFetch k (settled_as o))
       ∧ (∀ b nano ou now, o = FetchOk b nano ou now →
            jm_get k (cache s') = Some (media_of b nano ou now))
       ∧ (∀ evs' s'', run cfg evs' s' = Some s'' →
            promises s'' !! p = Some (mkFetch k (settled_as o)))).
Proof.
  intros Hrun Hp.
  pose proof (run_at_rest_registered cfg k evs new s (new_registered k) Hrun) as Hreg.
  pose proof (Hreg p Hp) as Hl.
  split; [|split; [done|split; [|split]]].
  - intros q Hq. apply Hreg in Hq. congruence.
  - unfold load. by rewrite Hl.
  - intros now. unfold get. by rewrite Hl.
  - intros o s' Hs. destruct (settle_outcome cfg p k o s s' Hp Hs) as (Hpr & _ & Hc).
    split; [done|]. split.
    + intros b nano ou now ->. done.
    + intros evs' s'' Hrun'. eapply run_settled_stable; [exact Hpr| |exact Hrun'].
      simpl. by destruct o.
Qed.

(** The theorem at two calls of [load] for one key, after a [clear]
    that came while the fetch of another key was out. *)
Lemma C1_witness :
  ∃ s, run_at_rest default_config "k" [ELoad "j"; EClear; ELoad "k"; ELoad "k"] new
       = Some s
    ∧ pending s 0 "j"
    ∧ pending s 1 "k"
    ∧ load "k" s = (s, 1%nat)
    ∧ length (promises s) = 2%nat.
Proof.
  eexists. split; [reflexivity|]. split; [reflexivity|]. split; [reflexivity|].
  split; [|reflexivity].
  eapply (C1_coalescing_while_registered default_config
            [ELoad "j"; EClear; ELoad "k"; ELoad "k"] _ "k" 1);
    reflexivity.
Defined.

(** C1 as stated fails: [clear] forgets the promise of a fetch that is
    still out, so the next [load] of the key starts a second fetch and
    hands out a second promise, and [get] reports a miss. *)
Lemma C1_counterexample :
  ∃ s, run default_config [ELoad "k"; EClear] new = Some s
    ∧ pending s 0 "k"
    ∧ (load "k" s).2 = 1%nat
    ∧ pending (load "k" s).1 0 "k"
    ∧ pending (load "k" s).1 1 "k"
    ∧ (get default_config "k" 0 s).2 = GetMiss.
Proof. eexists. split; [reflexivity|]. by repeat split. Qed.

(** *** The registry only names fetches that are out *)

Lemma same_registry_sound s s' :
  same_registry s s' → registry_sound s → registry_sound s'.
Proof.
  intros (Hl & Hp & _) Hs k p. unfold pending. rewrite Hl, Hp. apply Hs.
Qed.

Lemma load_sound url s : registry_sound s → registry_sound (load url s).1.
Proof.
  intros Hs. unfold load. destruct (loadingPromises s !! url) eqn:Hl; [done|].
  simpl. intros k p. unfold pending. simpl.
  destruct (decide (url = k)) as [->|Hne].
  - rewrite lookup_insert_eq. intros [= <-].
    rewrite lookup_app_r by lia. by rewrite Nat.sub_diag.
  - rewrite lookup_insert_ne by done. intros Hk. apply Hs in Hk.
    rewrite lookup_app_l; [done|]. by eapply pending_lt.
Qed.

Lemma settle_sound cfg p o s s' :
  registry_sound s → settle cfg p o s = Some s' → registry_sound s'.
Proof.
  intros Hs. unfold settle.
  destruct (promises s !! p) as [[url []]|] eqn:Hp; try done.
  assert (∀ s0 st k q,
            same_registry s s0 →
            delete url (loadingPromises s0) !! k = Some q →
            <[p := mkFetch url st]> (promises s0) !! q = Some (mkFetch k Pending))
    as Hkey.
  { intros s0 st k q (Hl & Hps & _). rewrite Hl, Hps.
    destruct (decide (url = k)) as [->|Hne]; [by rewrite lookup_delete_eq|].
    rewrite lookup_delete_ne by done. intros Hk. apply Hs in Hk.
    rewrite list_lookup_insert_ne; [done|]. intros ->.
    unfold pending in Hk. congruence. }
  destruct o as [b nano ou now|err]; intros [= <-]; intros k q; unfold pending; simpl.
  - destruct (decide _).
    + apply (Hkey (removeOldest s)). apply removeOldest_registry.
    + apply (Hkey s). apply same_registry_refl.
  - apply (Hkey s). apply same_registry_refl.
Qed.

Lemma exec_sound cfg ev s s' :
  registry_sound s → exec cfg ev s = Some s' → registry_sound s'.
Proof.
  intros Hs. destruct ev as [url now|url|url| |p o|h now]; simpl.
  - intros [= <-]. eapply same_registry_sound; [apply get_registry|done].
  - intros [= <-]. by apply load_sound.
  - intros [= <-]. eapply same_registry_sound; [apply remove_registry|done].
  - intros [= <-]. intros k p. by rewrite clear_loadingPromises, lookup_empty.
  - by apply settle_sound.
  - destruct (decide _); [|done]. intros [= <-].
    eapply same_registry_sound; [apply sweep_registry|done].
Qed.

Lemma reachable_sound cfg evs s : run cfg evs new = Some s → registry_sound s.
Proof.
  apply (run_keeps cfg registry_sound); [intros ev s1 s2; apply exec_sound|].
  intros k p. simpl. by rewrite lookup_empty.
Qed.

Lemma load_starts_fetch k s : loadingPromises s !! k = None → starts_fetch k s.
Proof.
  intros Hl. unfold starts_fetch, load. rewrite Hl. simpl.
  split; [done|]. split; [done|]. apply lookup_insert_eq.
Qed.

(** C9, amended. In every state that a cache can be in, a key that has
    a promise registered has a fetch that is still out, and [get] of
    that key returns the promise without looking at the cache: whatever
    the cache holds for the key, and whatever the time, the state is
    untouched and the result is neither a hit nor a miss.  The fetch can
    fail, and then the promise that [get] returned is rejected with its
    error.  A fetch of the key that is out is registered as long as
    [clear] has not been called while a fetch of the key was out. *)
Theorem C9_get_returns_in_flight_promise (cfg : Config) evs s k p :
  run cfg evs new = Some s →
  (loadingPromises s !! k = Some p →
     pending s p k
     ∧ (∀ now, get cfg k now s = (s, GetLoading p))
     ∧ (∀ err, ∃ s', settle cfg p (FetchFail err) s = Some s'
          ∧ promises s' !! p = Some (mkFetch k (Rejected err))))
  ∧ (run_at_rest cfg k evs new = Some s →
     pending s p k → loadingPromises s !! k = Some p).
Proof.
  intros Hrun. split.
  - intros Hl. pose proof (reachable_sound cfg evs s Hrun k p Hl) as Hp.
    split; [done|]. split.
    + intros now. unfold get. by rewrite Hl.
    + intros err. unfold settle. rewrite Hp. eexists. split; [done|]. simpl.
      apply list_lookup_insert_eq. by eapply pending_lt.
  - intros Hrest Hp.
    exact (run_at_rest_registered cfg k evs new s (new_registered k) Hrest p Hp).
Qed.

(** The theorem at a key that is cached, fresh, and being loaded again:
    [get] returns the promise, and the promise is rejected. *)
Lemma C9_witness :
  ∃ s, run default_config
         [ELoad "k"; ESettle 0 (FetchOk "b" "id" "blob:1" 0); ELoad "k"] new = Some s
    ∧ run_at_rest default_config "k"
        [ELoad "k"; ESettle 0 (FetchOk "b" "id" "blob:1" 0); ELoad "k"] new = Some s
    ∧ pending s 1 "k"
    ∧ loadingPromises s !! "k" = Some 1%nat
    ∧ jm_get "k" (cache s) = Some (media_of "b" "id" "blob:1" 0)
    ∧ get default_config "k" 1 s = (s, GetLoading 1)
    ∧ ∃ s', settle default_config 1 (FetchFail "HTTP error! status: 500") s = Some s'
        ∧ promises s' !! 1%nat
          = Some (mkFetch "k" (Rejected "HTTP error! status: 500")).
Proof.
  eexists. split; [reflexivity|]. split; [reflexivity|]. split; [reflexivity|].
  edestruct (C9_get_returns_in_flight_promise default_config
               [ELoad "k"; ESettle 0 (FetchOk "b" "id" "blob:1" 0); ELoad "k"]
               _ "k" 1%nat eq_refl) as (Hreg & Hlink).
  pose proof (Hlink eq_refl eq_refl) as Hl.
  destruct (Hreg Hl) as (_ & Hget & Hrej).
  split; [exact Hl|]. split; [reflexivity|]. split; [apply Hget|apply Hrej].
Defined.

(** C9 as stated fails: after [clear] the fetch of the key is still out,
    but [get] looks at the cache and reports a miss; and when an older
    fetch of the key, left over from such a [clear], has come back,
    [get] reports a hit while the newer fetch is still out. *)
Lemma C9_counterexample :
  (∃ s, run default_config [ELoad "k"; EClear] new = Some s
     ∧ pending s 0 "k"
     ∧ get default_config "k" 1 s = (s, GetMiss))
  ∧ (∃ s, run default_config
            [ELoad "k"; EClear; ELoad "k"; ESettle 0 (FetchOk "b" "id" "blob:1" 0)]
            new = Some s
     ∧ pending s 1 "k"
     ∧ get default_config "k" 1 s = (s, GetHit (media_of "b" "id" "blob:1" 0))).
Proof.
  split; eexists; (split; [reflexivity|]); by split.
Qed.

(** *** Expiry on lookup *)

(** C3, amended. [get] never returns as a hit an entry whose age is
    above [ttl].  When no promise is registered for the key, [get]
    removes the entry, revokes its object URL and reports a miss, and
    the next [load] of the key starts a fetch.  When a promise is
    registered for the key, [get] returns that promise and leaves the
    entry where it is. *)
Theorem C3_expired_entry_is_not_a_hit (cfg : Config) s k cached now :
  jm_get k (cache s) = Some cached →
  now - timestamp cached > ttl cfg →
  (∀ m, (get cfg k now s).2 ≠ GetHit m)
  ∧ (loadingPromises s !! k = None →
       (get cfg k now s).2 = GetMiss
       ∧ jm_get k (cache (get cfg k now s).1) = None
       ∧ revoked (get cfg k now s).1 = revoked s ++ [objectUrl cached]
       ∧ (∀ now', (get cfg k now' (get cfg k now s).1).2 = GetMiss)
       ∧ starts_fetch k (get cfg k now s).1)
  ∧ (∀ p, loadingPromises s !! k = Some p → get cfg k now s = (s, GetLoading p)).
Proof.
  intros Hc Hage. destruct (loadingPromises s !! k) as [p|] eqn:Hl.
  - assert (get cfg k now s = (s, GetLoading p)) as Hget.
    { unfold get. by rewrite Hl. }
    rewrite Hget. simpl. split; [done|]. split; [done|]. by intros ? [= <-].
  - assert (get cfg k now s = (remove k s, GetMiss)) as Hget.
    { unfold get. rewrite Hl, Hc. by rewrite decide_True. }
    rewrite Hget. simpl.
    assert (cache (remove k s) = jm_delete k (cache s)
            ∧ revoked (remove k s) = revoked s ++ [objectUrl cached]
            ∧ loadingPromises (remove k s) = loadingPromises s) as (Hrc & Hrr & Hrl).
    { unfold remove. rewrite Hc. done. }
    split; [done|]. split; [|done]. intros _.
    split; [done|]. split; [by rewrite Hrc, jm_get_delete|]. split; [done|]. split.
    + intros now'. unfold get. rewrite Hrl, Hl, Hrc, jm_get_delete. done.
    + apply load_starts_fetch. by rewrite Hrl.
Qed.

(** The theorem at an entry of age [ttl + 1]. *)
Lemma C3_witness :
  let s := after default_config
             [ELoad "k"; ESettle 0 (FetchOk "b" "id" "blob:1" 0)] in
  jm_get "k" (cache s) = Some (media_of "b" "id" "blob:1" 0)
  ∧ 1800001 - 0 > ttl default_config
  ∧ (get default_config "k" 1800001 s).2 = GetMiss
  ∧ revoked (get default_config "k" 1800001 s).1 = ["blob:1"]
  ∧ starts_fetch "k" (get default_config "k" 1800001 s).1.
Proof.
  intros s. split; [reflexivity|]. split; [done|].
  destruct (C3_expired_entry_is_not_a_hit default_config s "k"
              (media_of "b" "id" "blob:1" 0) 1800001 eq_refl)
    as (_ & Hmiss & _); [done|].
  destruct (Hmiss eq_refl) as (H1 & _ & H3 & _ & H5).
  split; [exact H1|]. split; [exact H3|exact H5].
Defined.

(** C3 as stated fails: with a fetch of the key out, [get] does not
    remove the expired entry and does not report a miss. *)
Lemma C3_counterexample :
  ∃ s, run default_config
         [ELoad "k"; ESettle 0 (FetchOk "b" "id" "blob:1" 0); ELoad "k"] new = Some s
    ∧ jm_get "k" (cache s) = Some (media_of "b" "id" "blob:1" 0)
    ∧ 1800001 - 0 > ttl default_config
    ∧ get default_config "k" 1800001 s = (s, GetLoading 1)
    ∧ jm_get "k" (cache (get default_config "k" 1800001 s).1)
      = Some (media_of "b" "id" "blob:1" 0)
    ∧ revoked (get default_config "k" 1800001 s).1 = [].
Proof. eexists. split; [reflexivity|]. by repeat split. Qed.

(** *** A fetch that fails *)

(** C7, amended. When the fetch of a key fails, the promise is rejected
    with the error and nothing is stored: the cache is as it was.  A key
    that had no entry still has none and is a miss; an entry that the
    key already had stays.  The promise is no longer registered for the
    key, and the next [load] of the key starts a fetch of its own. *)
Theorem C7_failed_fetch_stores_nothing (cfg : Config) s p k err :
  pending s p k →
  ∃ s', settle cfg p (FetchFail err) s = Some s'
    ∧ promises s' !! p = Some (mkFetch k (Rejected err))
    ∧ cache s' = cache s
    ∧ revoked s' = revoked s
    ∧ (jm_get k (cache s) = None →
         jm_get k (cache s') = None ∧ ∀ now, get cfg k now s' = (s', GetMiss))
    ∧ loadingPromises s' !! k = None
    ∧ starts_fetch k s'.
Proof.
  intros Hp. destruct (settle cfg p (FetchFail err) s) as [s'|] eqn:Hs.
  2: { unfold settle in Hs. by rewrite Hp in Hs. }
  destruct (settle_outcome cfg p k _ s s' Hp Hs) as (Hpr & Hl & Hc & Hr).
  assert (loadingPromises s' !! k = None) as Hnone.
  { rewrite Hl. apply lookup_delete_eq. }
  exists s'. split; [done|]. split; [done|]. split; [done|]. split; [done|].
  split; [|split; [done|by apply load_starts_fetch]].
  intros Hk. rewrite Hc. split; [done|]. intros now. unfold get.
  by rewrite Hnone, Hc, Hk.
Qed.

(** The theorem at the first fetch of a key. *)
Lemma C7_witness :
  let s := after default_config [ELoad "k"] in
  pending s 0 "k"
  ∧ ∃ s', settle default_config 0 (FetchFail "HTTP error! status: 404") s = Some s'
      ∧ cache s' = []
      ∧ loadingPromises s' !! "k" = None
      ∧ starts_fetch "k" s'.
Proof.
  intros s. split; [reflexivity|].
  destruct (C7_failed_fetch_stores_nothing default_config s 0 "k"
              "HTTP error! status: 404" eq_refl)
    as (s' & Hs & _ & Hc & _ & _ & Hl & Hf).
  exists s'. split; [exact Hs|]. split; [exact Hc|]. split; [exact Hl|exact Hf].
Defined.

(** C7 as stated fails: [load] does not look at the cache, so the key
    of a fetch that fails can have an entry, and the failure leaves it
    there: the key is a hit, not empty. *)
Lemma C7_counterexample :
  let s := after default_config
             [ELoad "k"; ESettle 0 (FetchOk "b" "id" "blob:1" 0); ELoad "k"] in
  pending s 1 "k"
  ∧ ∃ s', settle default_config 1 (FetchFail "HTTP error! status: 500") s = Some s'
      ∧ promises s' !! 1%nat
        = Some (mkFetch "k" (Rejected "HTTP error! status: 500"))
      ∧ jm_get "k" (cache s') = Some (media_of "b" "id" "blob:1" 0)
      ∧ get default_config "k" 1 s' = (s', GetHit (media_of "b" "id" "blob:1" 0)).
Proof.
  intros s. split; [reflexivity|]. eexists. split; [reflexivity|]. by repeat split.
Qed.

(** *** An entry stored over an entry *)

Lemma settle_over_entry cfg p k old b nano ou now s s' :
  pending s p k → jm_get k (cache s) = Some old →
  (jm_size (cache s) < maxSize cfg)%nat →
  settle cfg p (FetchOk b nano ou now) s = Some s' →
  jm_get k (cache s') = Some (media_of b nano ou now) ∧ revoked s' = revoked s.
Proof.
  intros Hp Hold Hroom. unfold settle. rewrite Hp.
  rewrite decide_False by lia. intros [= <-]. simpl. by rewrite jm_get_set.
Qed.

(** C6, on the code. A key is loaded, and loaded again once the first
    fetch has come back; the second entry takes the place of the first,
    and the object URL of the first is not revoked. *)
Theorem C6_replaced_entry_keeps_its_object_url :
  let s := after default_config
             [ELoad "k"; ESettle 0 (FetchOk "b1" "id1" "blob:1" 0); ELoad "k"] in
  jm_get "k" (cache s) = Some (media_of "b1" "id1" "blob:1" 0)
  ∧ pending s 1 "k"
  ∧ ∃ s', settle default_config 1 (FetchOk "b2" "id2" "blob:2" 5) s = Some s'
      ∧ cache s' = [("k", media_of "b2" "id2" "blob:2" 5)]
      ∧ revoked s' = []
      ∧ ("blob:1" ∉ revoked s').
Proof.
  intros s. split; [reflexivity|]. split; [reflexivity|].
  eexists. split; [reflexivity|]. split; [reflexivity|].
  split; [reflexivity|]. simpl. apply not_elem_of_nil.
Qed.

(** *** [clear] *)

Lemma clear_loop_revoked_mono (l : list (string * CachedMedia)) a u :
  u ∈ revoked a → u ∈ revoked (foldl (λ acc e, remove e.1 acc) a l).
Proof.
  revert a. induction l as [|e l IH]; simpl; intros a Hu; [done|].
  apply IH. by apply remove_revoked_mono.
Qed.

Lemma clear_loop_revokes (l : list (string * CachedMedia)) a k m :
  jm_get k (cache a) = Some m → k ∈ l.*1 →
  objectUrl m ∈ revoked (foldl (λ acc e, remove e.1 acc) a l).
Proof.
  revert a. induction l as [|e l IH]; simpl; intros a Hg Hin.
  - by apply not_elem_of_nil in Hin.
  - destruct (decide (k = e.1)) as [->|Hne].
    + apply clear_loop_revoked_mono. unfold remove. rewrite Hg. simpl.
      apply elem_of_app. right. apply list_elem_of_here.
    + apply elem_of_cons in Hin as [?|Hin]; [done|]. apply IH; [|done].
      unfold remove. destruct (jm_get e.1 (cache a)); simpl; [|done].
      by rewrite jm_get_delete_ne.
Qed.

Lemma clear_revoked s u :
  u ∈ revoked (clear s) ↔ u ∈ revoked (foldl (λ acc e, remove e.1 acc) s (cache s)).
Proof. unfold clear. destruct (cleanupInterval _); simpl; done. Qed.

Lemma clear_revokes s k m :
  jm_get k (cache s) = Some m → objectUrl m ∈ revoked (clear s).
Proof.
  intros Hg. apply clear_revoked. apply (clear_loop_revokes _ _ k); [done|].
  apply jm_get_Some_elem in Hg. apply list_elem_of_fmap. by exists (k, m).
Qed.

Lemma get_empty cfg k now s :
  cache s = [] → loadingPromises s = ∅ → get cfg k now s = (s, GetMiss).
Proof. intros Hc Hl. unfold get. rewrite Hl, lookup_empty, Hc. done. Qed.

Lemma exec_stays_empty cfg ev s s' :
  stores_nothing ev = true →
  cache s = [] ∧ loadingPromises s = ∅ →
  exec cfg ev s = Some s' →
  cache s' = [] ∧ loadingPromises s' = ∅.
Proof.
  intros Hev [Hc Hl]. destruct ev as [url now|url|url| |p o|h now]; simpl; try done.
  - rewrite get_empty by done. by intros [= <-].
  - unfold remove. rewrite Hc. simpl. by intros [= <-].
  - intros [= <-]. by rewrite clear_cache, clear_loadingPromises.
  - destruct o as [|err]; [done|]. unfold settle.
    destruct (promises s !! p) as [[url []]|]; try done.
    intros [= <-]. simpl. rewrite Hl. split; [done|]. apply delete_empty.
  - destruct (decide _); [|done]. intros [= <-]. unfold sweep. rewrite Hc. done.
Qed.

Lemma run_stays_empty cfg evs s s' :
  forallb stores_nothing evs = true →
  cache s = [] ∧ loadingPromises s = ∅ →
  run cfg evs s = Some s' →
  cache s' = [] ∧ loadingPromises s' = ∅.
Proof.
  revert s. induction evs as [|ev evs IH]; simpl; intros s Hevs He.
  - by intros [= <-].
  - apply andb_prop in Hevs as [Hev Hevs].
    destruct (exec cfg ev s) as [s1|] eqn:Hx; [|done].
    apply IH; [done|]. by eapply exec_stays_empty.
Qed.

Lemma settle_on_empty cfg p k b nano ou now s s' :
  cache s = [] → pending s p k →
  settle cfg p (FetchOk b nano ou now) s = Some s' →
  cache s' = [(k, media_of b nano ou now)].
Proof.
  intros Hc Hp. unfold settle. rewrite Hp.
  assert (removeOldest s = s) as Hro.
  { unfold removeOldest. by rewrite Hc. }
  rewrite Hro. destruct (decide _); intros [= <-]; simpl; by rewrite Hc.
Qed.

(** C8, amended. When [clear] returns, the cache and the map of
    promises are empty, the object URL of every entry that was cached
    has been revoked, and every key is a miss.  That stays so as long as
    no [load] is called and no fetch comes back ok.  The fetches that
    were out are still out: the promises that callers hold settle when
    the fetches come back, and one that comes back ok stores its entry
    in the cleared cache, where later lookups find it. *)
Theorem C8_clear_empties_until_a_fetch_stores (cfg : Config) s :
  cache (clear s) = []
  ∧ loadingPromises (clear s) = ∅
  ∧ (∀ k m, jm_get k (cache s) = Some m → objectUrl m ∈ revoked (clear s))
  ∧ (∀ k now, get cfg k now (clear s) = (clear s, GetMiss))
  ∧ (∀ evs s', forallb stores_nothing evs = true →
       run cfg evs (clear s) = Some s' →
       cache s' = [] ∧ loadingPromises s' = ∅
       ∧ ∀ k now, get cfg k now s' = (s', GetMiss))
  ∧ (∀ p k, pending s p k →
       pending (clear s) p k
       ∧ ∀ b nano ou now, ∃ s',
           settle cfg p (FetchOk b nano ou now) (clear s) = Some s'
           ∧ promises s' !! p = Some (mkFetch k (Fulfilled (media_of b nano ou now)))
           ∧ cache s' = [(k, media_of b nano ou now)]
           ∧ (∀ now', ¬ now' - now > ttl cfg →
                get cfg k now' s' = (s', GetHit (media_of b nano ou now)))).
Proof.
  split; [apply clear_cache|]. split; [done|]. split; [apply clear_revokes|].
  split; [|split].
  - intros k now. apply get_empty; [apply clear_cache|done].
  - intros evs s' Hevs Hrun.
    destruct (run_stays_empty cfg evs (clear s) s' Hevs) as [Hc Hl];
      [by split; [apply clear_cache|]|done|].
    split; [done|]. split; [done|]. intros k now. by apply get_empty.
  - intros p k Hp.
    assert (pending (clear s) p k) as Hp'.
    { unfold pending. by rewrite clear_promises. }
    split; [done|]. intros b nano ou now.
    destruct (settle cfg p (FetchOk b nano ou now) (clear s)) as [s'|] eqn:Hs.
    2: { unfold settle in Hs. by rewrite Hp' in Hs. }
    destruct (settle_outcome cfg p k _ _ s' Hp' Hs) as (Hpr & Hl & Hg).
    assert (cache s' = [(k, media_of b nano ou now)]) as Hc.
    { by apply (settle_on_empty cfg p k b nano ou now (clear s));
        [apply clear_cache| |]. }
    exists s'. split; [done|]. split; [done|]. split; [done|].
    intros now' Hfresh. unfold get. rewrite Hl, clear_loadingPromises.
    rewrite delete_empty, lookup_empty, Hg. simpl. by rewrite decide_False.
Qed.

(** The theorem at a cache with one entry and one fetch out. *)
Lemma C8_witness :
  let s := after default_config
             [ELoad "a"; ESettle 0 (FetchOk "b" "id" "blob:1" 0); ELoad "k"] in
  jm_get "a" (cache s) = Some (media_of "b" "id" "blob:1" 0)
  ∧ pending s 1 "k"
  ∧ "blob:1" ∈ revoked (clear s)
  ∧ get default_config "a" 1 (clear s) = (clear s, GetMiss)
  ∧ pending (clear s) 1 "k"
  ∧ ∃ s', run default_config [ESettle 1 (FetchFail "Failed to fetch")] (clear s) = Some s'
      ∧ cache s' = [].
Proof.
  intros s.
  destruct (C8_clear_empties_until_a_fetch_stores default_config s)
    as (_ & _ & Hrev & Hmiss & Hstay & Hout).
  split; [reflexivity|]. split; [reflexivity|].
  split; [exact (Hrev "a" _ eq_refl)|]. split; [apply Hmiss|].
  split; [exact (proj1 (Hout 1%nat "k" eq_refl))|].
  eexists. split; [reflexivity|].
  exact (proj1 (Hstay [ESettle 1 (FetchFail "Failed to fetch")] _ eq_refl eq_refl)).
Defined.

(** C8 as stated fails: a fetch that was out when [clear] was called
    comes back ok afterwards and stores its entry, and the key is a
    hit. *)
Lemma C8_counterexample :
  let s := after default_config [ELoad "k"; EClear] in
  ∃ s', run default_config [ESettle 0 (FetchOk "b" "id" "blob:1" 0)] s = Some s'
    ∧ cache s' = [("k", media_of "b" "id" "blob:1" 0)]
    ∧ get default_config "k" 1 s' = (s', GetHit (media_of "b" "id" "blob:1" 0)).
Proof. eexists. split; [reflexivity|]. by split. Qed.

(** *** The cleanup interval *)

Lemma same_registry_owned s s' :
  same_registry s s' → timers_owned s → timers_owned s'.
Proof. intros (_ & _ & Hc & Hi & _). unfold timers_owned. by rewrite Hc, Hi. Qed.

Lemma load_registry_timers url s :
  cleanupInterval (load url s).1 = cleanupInterval s
  ∧ intervals (load url s).1 = intervals s.
Proof. unfold load. by destruct (loadingPromises s !! url). Qed.

Lemma settle_registry_timers cfg p o s s' :
  settle cfg p o s = Some s' →
  cleanupInterval s' = cleanupInterval s ∧ intervals s' = intervals s.
Proof.
  unfold settle. destruct (promises s !! p) as [[url []]|]; try done.
  destruct o as [b nano ou now|err]; intros [= <-]; simpl; [|done].
  destruct (decide _); [|done].
  by destruct (removeOldest_registry s) as (_ & _ & -> & -> & _).
Qed.

Lemma clear_timers s :
  timers_owned s → cleanupInterval (clear s) = None ∧ intervals (clear s) = [].
Proof.
  unfold timers_owned, clear. intros Ho.
  destruct (clear_loop_registry s) as (_ & _ & Hc & Hi & _).
  rewrite Hc. destruct (cleanupInterval s) as [h|] eqn:Hh; simpl.
  - split; [done|]. rewrite Hi, Ho. cbn. by rewrite decide_False by naive_solver.
  - split; [done|]. by rewrite Hi.
Qed.

Lemma exec_owned cfg ev s s' :
  timers_owned s → exec cfg ev s = Some s' → timers_owned s'.
Proof.
  intros Ho. destruct ev as [url now|url|url| |p o|h now]; simpl.
  - intros [= <-]. eapply same_registry_owned; [apply get_registry|done].
  - intros [= <-]. unfold timers_owned.
    by destruct (load_registry_timers url s) as [-> ->].
  - intros [= <-]. eapply same_registry_owned; [apply remove_registry|done].
  - intros [= <-]. unfold timers_owned.
    by destruct (clear_timers s Ho) as [-> ->].
  - intros Hs. unfold timers_owned.
    by destruct (settle_registry_timers cfg p o s s' Hs) as [-> ->].
  - destruct (decide _); [|done]. intros [= <-].
    eapply same_registry_owned; [apply sweep_registry|done].
Qed.

Lemma reachable_owned cfg evs s : run cfg evs new = Some s → timers_owned s.
Proof. apply (run_keeps cfg timers_owned); [apply exec_owned|done]. Qed.

Lemma exec_without_timer cfg ev s s' :
  cleanupInterval s = None ∧ intervals s = [] →
  exec cfg ev s = Some s' →
  is_tick ev = false ∧ cleanupInterval s' = None ∧ intervals s' = [].
Proof.
  intros [Hc Hi] Hx.
  assert (timers_owned s) as Ho by (unfold timers_owned; by rewrite Hc, Hi).
  destruct ev as [url now|url|url| |p o|h now]; simpl in Hx |- *.
  - injection Hx as <-. destruct (get_registry cfg url now s) as (_ & _ & -> & -> & _).
    done.
  - injection Hx as <-. by destruct (load_registry_timers url s) as [-> ->].
  - injection Hx as <-. by destruct (remove_registry url s) as (_ & _ & -> & -> & _).
  - injection Hx as <-. split; [done|]. by apply clear_timers.
  - by destruct (settle_registry_timers cfg p o s s' Hx) as [-> ->].
  - rewrite Hi in Hx. rewrite decide_False in Hx; [done|apply not_elem_of_nil].
Qed.

Lemma run_without_timer cfg evs s s' :
  cleanupInterval s = None ∧ intervals s = [] →
  run cfg evs s = Some s' →
  Forall (λ ev, is_tick ev = false) evs
  ∧ cleanupInterval s' = None ∧ intervals s' = [].
Proof.
  revert s. induction evs as [|ev evs IH]; simpl; intros s Hs.
  - intros [= <-]. split; [apply Forall_nil_2|done].
  - destruct (exec cfg ev s) as [s1|] eqn:Hx; [|done]. intros Hrun.
    destruct (exec_without_timer cfg ev s s1 Hs Hx) as (Hev & Hs1).
    destruct (IH s1 Hs1 Hrun) as (Hevs & Hs').
    split; [by apply Forall_cons|done].
Qed.

(** C10. Once [clear] has been called on a cache, the interval of the
    cleanup is cancelled and the field is [null], and no method sets it
    again: in everything that happens to the instance afterwards there
    is no tick of the sweep, the window holds no interval of the cache,
    and a tick cannot happen next either.  So an entry stored after
    [clear] is never removed by the sweep. *)
Theorem C10_no_sweep_after_clear (cfg : Config) evs0 s0 evs s :
  run cfg evs0 new = Some s0 →
  run cfg evs (clear s0) = Some s →
  Forall (λ ev, is_tick ev = false) evs
  ∧ cleanupInterval s = None
  ∧ intervals s = []
  ∧ ∀ h now, exec cfg (ETick h now) s = None.
Proof.
  intros Hrun0 Hrun.
  pose proof (clear_timers s0 (reachable_owned cfg evs0 s0 Hrun0)) as Hclear.
  destruct (run_without_timer cfg evs (clear s0) s Hclear Hrun) as (Hevs & Hc & Hi).
  split; [done|]. split; [done|]. split; [done|].
  intros h now. simpl. rewrite Hi. rewrite decide_False; [done|apply not_elem_of_nil].
Qed.

(** The theorem at a cache that was swept once, then cleared, then
    stored an entry: the sweep that ran before [clear] cannot run on
    the new entry, however old it gets. *)
Lemma C10_witness :
  let s0 := after default_config [ELoad "k"; ETick 1 10] in
  let s := after default_config
             [ELoad "k"; ETick 1 10; EClear;
              ESettle 0 (FetchOk "b" "id" "blob:1" 20); EGet "k" 30] in
  run default_config [ELoad "k"; ETick 1 10] new = Some s0
  ∧ run default_config [ESettle 0 (FetchOk "b" "id" "blob:1" 20); EGet "k" 30]
        (clear s0) = Some s
  ∧ cache s = [("k", media_of "b" "id" "blob:1" 20)]
  ∧ exec default_config (ETick 1 99999999) s = None.
Proof.
  intros s0 s.
  assert (run default_config [ELoad "k"; ETick 1 10] new = Some s0) as H0
    by reflexivity.
  assert (run default_config [ESettle 0 (FetchOk "b" "id" "blob:1" 20); EGet "k" 30]
            (clear s0) = Some s) as H1 by reflexivity.
  split; [exact H0|]. split; [exact H1|]. split; [reflexivity|].
  exact (proj2 (proj2 (proj2
    (C10_no_sweep_after_clear default_config _ s0 _ s H0 H1))) 1%positive 99999999).
Defined.

End CacheProps.

(** ** Properties of the retry loop of the loader *)
Module LoaderProps.
Import MediaContent Vocabulary.

(** One call of [loadMedia] that has to fetch, and whose fetch fails. *)
Lemma loadMedia_fetch_fails network c e :
  url c ≠ "" → mountedRef c = true →
  mediaCache c !! url c = None → String.prefix "blob:" (url c) = false →
  network (S (fetches c)) = ResponseError e →
  loadMedia network c =
    let c1 := onError (show (objectUrl c) (Some e) (fetch c)) in
    if decide (retryCount c < 2)%nat
    then setTimeout (retry_delay (S (retryCount c)))
                    (set_retryCount (S (retryCount c)) c1)
    else c1.
Proof.
  intros Hu Hm Hc Hb Hn. unfold loadMedia, loadMedia_begin.
  rewrite decide_False by done. rewrite Hm, Hc, Hb. simpl.
  rewrite Hn. simpl. rewrite Hm. simpl. done.
Qed.

Lemma run_idle network fuel c : timer c = false → run network fuel c = c.
Proof.
  revert c. induction fuel as [|n IH]; simpl; intros c Ht; [done|].
  unfold fire. rewrite Ht. by apply IH.
Qed.

Lemma run_add network n m c :
  run network (n + m) c = run network m (run network n c).
Proof. revert c. induction n as [|n IH]; simpl; intros c; [done|apply IH]. Qed.

(** C4. A component is given a key that is not cached and whose fetch
    fails three times; it stays mounted with the same props, and nobody
    presses Retry.  After the first call and two retries the component
    shows the third error, has called [fetch] three times and has no
    timer waiting: however long the loop is run, there is no fourth
    call, whatever the network would answer to it, and nothing is stored
    in the cache.  The [load] of the cache manager makes one attempt: a
    fetch that fails there starts no other. *)
Theorem C4_three_attempts_then_failure
    (network : nat → Response) u (cache0 : gmap string CacheItem) e1 e2 e3 :
  u ≠ "" → String.prefix "blob:" u = false → cache0 !! u = None →
  network 1%nat = ResponseError e1 →
  network 2%nat = ResponseError e2 →
  network 3%nat = ResponseError e3 →
  (∀ fuel, (2 ≤ fuel)%nat →
     let c := run network fuel (request network (mounted u cache0)) in
     fetches c = 3%nat
     ∧ error c = Some e3
     ∧ isLoading c = false
     ∧ timer c = false
     ∧ mediaCache c = cache0
     ∧ onLoadCalls c = 0%nat
     ∧ onErrorCalls c = 3%nat)
  ∧ (∀ cfg s p k err s',
       MediaCache.pending s p k →
       MediaCache.settle cfg p (MediaCache.FetchFail err) s = Some s' →
       length (MediaCache.promises s') = length (MediaCache.promises s)
       ∧ MediaCache.promises s' !! p
         = Some (MediaCache.mkFetch k (MediaCache.Rejected err))).
Proof.
  intros Hu Hb Hc H1 H2 H3. split.
  - intros fuel Hfuel.
    replace fuel with (2 + (fuel - 2))%nat by lia. rewrite run_add.
    set (c3 := run network 2 (request network (mounted u cache0))).
    assert (fetches c3 = 3%nat ∧ error c3 = Some e3 ∧ isLoading c3 = false
            ∧ timer c3 = false ∧ mediaCache c3 = cache0
            ∧ onLoadCalls c3 = 0%nat ∧ onErrorCalls c3 = 3%nat) as Hc3.
    { subst c3. unfold request.
      pose (c0 := reset (mounted u cache0)).
      pose (t1 := setTimeout (retry_delay 1)
                    (set_retryCount 1 (onError (show "" (Some e1) (fetch c0))))).
      pose (c1 := timer_fired t1).
      pose (t2 := setTimeout (retry_delay 2)
                    (set_retryCount 2 (onError (show "" (Some e2) (fetch c1))))).
      pose (c2 := timer_fired t2).
      assert (loadMedia network c0 = t1) as E1
        by (by rewrite (loadMedia_fetch_fails network c0 e1)).
      assert (loadMedia network c1 = t2) as E2
        by (by rewrite (loadMedia_fetch_fails network c1 e2)).
      assert (loadMedia network c2 = onError (show "" (Some e3) (fetch c2))) as E3
        by (by rewrite (loadMedia_fetch_fails network c2 e3)).
      fold c0. rewrite E1.
      assert (fire network t1 = t2) as F1 by (unfold fire; cbn [timer t1 setTimeout]; exact E2).
      assert (fire network t2 = onError (show "" (Some e3) (fetch c2))) as F2
        by (unfold fire; cbn [timer t2 setTimeout]; exact E3).
      cbn [run]. rewrite F1, F2. done. }
    simpl. rewrite run_idle; [done|]. by destruct Hc3 as (_ & _ & _ & -> & _).
  - intros cfg s p k err s' Hp. unfold MediaCache.settle. rewrite Hp.
    intros [= <-]. simpl. rewrite length_insert. split; [done|].
    apply list_lookup_insert_eq. by apply lookup_lt_Some in Hp.
Qed.

(** The theorem at a network that fails three times and would then
    answer. *)
Lemma C4_witness :
  let network := λ n : nat, if decide (n ≤ 3)%nat
                            then ResponseError "HTTP error! status: 503"
                            else ResponseOk "bytes" "blob:1" in
  let c := run network 10 (request network (mounted "http://h/a.png" ∅)) in
  network 4%nat = ResponseOk "bytes" "blob:1"
  ∧ fetches c = 3%nat
  ∧ error c = Some "HTTP error! status: 503"
  ∧ timer c = false
  ∧ mediaCache c = ∅.
Proof.
  intros network c. split; [reflexivity|].
  assert ("http://h/a.png" ≠ "") as Hu by done.
  destruct (C4_three_attempts_then_failure network "http://h/a.png" ∅
              "HTTP error! status: 503" "HTTP error! status: 503"
              "HTTP error! status: 503" Hu eq_refl (lookup_empty _)
              eq_refl eq_refl eq_refl)
    as [Hloop _].
  destruct (Hloop 10%nat) as (Hf & He & _ & Ht & Hm & _); [lia|].
  split; [exact Hf|]. split; [exact He|]. split; [exact Ht|exact Hm].
Defined.

(** *** The delays of the retries *)

Lemma loadMedia_delays network c :
  delays_follow c → delays_follow (loadMedia network c).
Proof.
  intros [Ht Hr]. unfold loadMedia, loadMedia_begin.
  destruct (decide (url c = "")); [done|].
  destruct (mountedRef c) eqn:Hm; simpl; [|done].
  assert (∀ c', timeouts c' = timeouts c → retryCount c' = retryCount c →
                delays_follow (loadMedia_resume (network (fetches c')) c')) as Hres.
  { intros c' Ht' Hr'. unfold loadMedia_resume.
    destruct (network (fetches c')) as [b ou|msg].
    - destruct (mountedRef c'); simpl; unfold delays_follow; simpl;
        rewrite Ht', Hr'; done.
    - destruct (mountedRef c'); simpl; [|unfold delays_follow; by rewrite Ht', Hr'].
      destruct (decide (retryCount c' < 2)%nat) as [Hlt|Hge];
        unfold delays_follow;
        cbn [timeouts retryCount setTimeout set_retryCount onError show];
        rewrite Ht', Hr'; [|done].
      split; [|lia]. rewrite Ht, seq_S, map_app. done. }
  destruct (mediaCache c !! url c) as [[b ou []]|]; try done.
  - destruct (String.prefix "blob:" (url c)); [done|]. by apply Hres.
  - destruct (String.prefix "blob:" (url c)); [done|]. by apply Hres.
Qed.

Lemma run_delays network fuel c :
  delays_follow c → delays_follow (run network fuel c).
Proof.
  revert c. induction fuel as [|n IH]; simpl; intros c Hc; [done|].
  apply IH. unfold fire. destruct (timer c); [|done].
  apply loadMedia_delays. done.
Qed.

(** C5, amended. The delay before the [n]-th retry is [1000 * 2 ^ n]
    milliseconds: 2000 before the first and 4000 before the second, and
    there is no third.  No cap is applied, and no retry waits more than
    4000 ms. *)
Theorem C5_retry_delay_doubles_from_2000
    (network : nat → Response) u (cache0 : gmap string CacheItem) fuel n d :
  timeouts (run network fuel (request network (mounted u cache0))) !! n = Some d →
  d = 1000 * 2 ^ Z.of_nat (S n)
  ∧ (S n ≤ 2)%nat
  ∧ 2000 ≤ d ≤ 4000.
Proof.
  intros Hd.
  assert (delays_follow (run network fuel (request network (mounted u cache0))))
    as [Ht Hr].
  { apply run_delays. unfold request. apply loadMedia_delays.
    split; [done|simpl; lia]. }
  rewrite Ht in Hd. apply list_lookup_fmap_Some in Hd as (i & -> & Hi).
  apply lookup_seq in Hi as [-> Hlt]. unfold retry_delay.
  split; [done|]. split; [lia|].
  destruct n as [|[|n]]; [simpl; lia|simpl; lia|lia].
Qed.

(** The theorem at a fetch that fails every time. *)
Lemma C5_witness :
  let network := λ _ : nat, ResponseError "Failed to fetch" in
  let c := run network 5 (request network (mounted "http://h/a.png" ∅)) in
  timeouts c = [2000; 4000]
  ∧ timeouts c !! 1%nat = Some 4000
  ∧ 4000 = 1000 * 2 ^ Z.of_nat 2.
Proof.
  intros network c. split; [reflexivity|]. split; [reflexivity|].
  exact (proj1 (C5_retry_delay_doubles_from_2000 network "http://h/a.png" ∅ 5 1 4000
                  eq_refl)).
Defined.

(** C5 as stated fails: the first retry waits 2000 ms, not
    [min (1000 * 2 ^ (1 - 1)) 8000 = 1000]. *)
Lemma C5_counterexample :
  let network := λ _ : nat, ResponseError "Failed to fetch" in
  let c := request network (mounted "http://h/a.png" ∅) in
  fetches c = 1%nat
  ∧ timeouts c = [2000]
  ∧ 2000 ≠ Z.min (1000 * 2 ^ (1 - 1)) 8000.
Proof. intros network c. split; [reflexivity|]. split; [reflexivity|]. done. Qed.

End LoaderProps.

(** ** More on the cache manager *)
Module CacheExtras.
Import MediaCache Vocabulary JsMapFacts CacheProps.

Lemma jm_delete_absent {V} k (m : list (string * V)) :
  k ∉ m.*1 → jm_delete k m = m.
Proof.
  induction m as [|[k' v'] m IH]; simpl; [done|].
  rewrite not_elem_of_cons. intros [Hne Hnin].
  rewrite decide_False by done. f_equal. auto.
Qed.

Lemma jm_wf_app_drop {V} (l1 l2 : list (string * V)) e :
  jm_wf (l1 ++ e :: l2) → jm_wf (l1 ++ l2).
Proof.
  destruct e as [k v]. intros Hwf.
  rewrite <- (jm_delete_middle k v l1 l2 Hwf). by apply jm_delete_wf.
Qed.

(** *** The sweep *)

Lemma sweep_loop cfg now (l kept : list (string * CachedMedia)) a :
  cache a = kept ++ l → jm_wf (kept ++ l) →
  let r := foldl (λ acc e, if decide (now - timestamp e.2 > ttl cfg)
                           then remove e.1 acc else acc) a l in
  cache r = kept ++ filter (λ e, ¬ now - timestamp e.2 > ttl cfg) l
  ∧ revoked r
    = revoked a ++ ((λ e, objectUrl e.2) <$> filter (λ e, now - timestamp e.2 > ttl cfg) l)
  ∧ same_registry a r.
Proof.
  revert kept a. induction l as [|[k v] l IH]; intros kept a Hc Hwf; simpl.
  - rewrite !app_nil_r. split; [by rewrite Hc, app_nil_r|].
    split; [done|apply same_registry_refl].
  - destruct (decide (now - timestamp v > ttl cfg)) as [Hexp|Hfresh].
    + rewrite filter_cons_False by (simpl; tauto).
      rewrite filter_cons_True by done.
      destruct (IH kept (remove k a)) as (H1 & H2 & H3).
      * unfold remove. rewrite Hc, (jm_get_middle k v kept l Hwf). simpl.
        rewrite Hc. by apply jm_delete_middle.
      * by eapply jm_wf_app_drop.
      * split; [done|]. split.
        -- rewrite H2. unfold remove. rewrite Hc, (jm_get_middle k v kept l Hwf).
           simpl. by rewrite <- app_assoc.
        -- eapply same_registry_trans; [apply remove_registry|done].
    + rewrite filter_cons_True by done.
      rewrite filter_cons_False by done.
      destruct (IH (kept ++ [(k, v)]) a) as (H1 & H2 & H3).
      * by rewrite <- app_assoc.
      * by rewrite <- app_assoc.
      * split; [|done]. by rewrite H1, <- app_assoc.
Qed.

(** X1. A tick of the cleanup interval removes from the cache exactly
    the entries whose age is above [ttl], keeps the others in their
    order, revokes the object URL of each removed entry once, in the
    order of the cache, and leaves the promises alone. *)
Theorem X1_sweep_removes_exactly_the_expired (cfg : Config) evs s now :
  run cfg evs new = Some s →
  cache (sweep cfg now s)
    = filter (λ e, ¬ now - timestamp e.2 > ttl cfg) (cache s)
  ∧ revoked (sweep cfg now s)
    = revoked s
      ++ ((λ e, objectUrl e.2) <$> filter (λ e, now - timestamp e.2 > ttl cfg) (cache s))
  ∧ same_registry s (sweep cfg now s).
Proof.
  intros Hrun. pose proof (reachable_wf cfg evs s Hrun) as Hwf.
  exact (sweep_loop cfg now (cache s) [] s eq_refl Hwf).
Qed.

(** The theorem at a cache with an old and a young entry. *)
Lemma X1_witness :
  let evs := [ELoad "a"; ESettle 0 (FetchOk "x" "i1" "blob:1" 0);
              ELoad "b"; ESettle 1 (FetchOk "y" "i2" "blob:2" 1000000)] in
  let s := after default_config evs in
  run default_config evs new = Some s
  ∧ (cache (sweep default_config 2000000 s)).*1 = ["b"]
  ∧ revoked (sweep default_config 2000000 s) = ["blob:1"].
Proof.
  intros evs s. assert (run default_config evs new = Some s) as Hrun by (vm_compute; reflexivity).
  split; [exact Hrun|].
  destruct (X1_sweep_removes_exactly_the_expired default_config evs s 2000000 Hrun)
    as (Hc & Hr & _).
  rewrite Hc, Hr. split; reflexivity.
Defined.

(** *** Storing and looking up *)

(** X2. The entry that a fetch stores is what [get] returns for the key
    from then on, with the state untouched, as long as its age is at
    most [ttl] (an age of exactly [ttl] is still served); once the age
    is above [ttl], [get] removes the entry, revokes its object URL and
    reports a miss. *)
Theorem X2_stored_entry_served_until_ttl (cfg : Config) s p k b nano ou now s' now' :
  pending s p k →
  settle cfg p (FetchOk b nano ou now) s = Some s' →
  (now' - now ≤ ttl cfg →
     get cfg k now' s' = (s', GetHit (media_of b nano ou now)))
  ∧ (now' - now > ttl cfg →
     (get cfg k now' s').2 = GetMiss
     ∧ jm_get k (cache (get cfg k now' s').1) = None
     ∧ revoked (get cfg k now' s').1 = revoked s' ++ [ou]).
Proof.
  intros Hp Hs.
  destruct (settle_outcome cfg p k _ s s' Hp Hs) as (_ & Hl & Hg).
  assert (loadingPromises s' !! k = None) as Hnone.
  { rewrite Hl. apply lookup_delete_eq. }
  split.
  - intros Hage. unfold get. rewrite Hnone, Hg. simpl.
    rewrite decide_False by lia. done.
  - intros Hage.
    assert (get cfg k now' s' = (remove k s', GetMiss)) as ->.
    { unfold get. rewrite Hnone, Hg. simpl. by rewrite decide_True. }
    simpl. unfold remove. rewrite Hg. simpl. by rewrite jm_get_delete.
Qed.

(** The theorem at an entry fetched at time 0, looked up at the age of
    [ttl] and one millisecond later. *)
Lemma X2_witness :
  let s := after default_config [ELoad "k"] in
  pending s 0 "k"
  ∧ ∃ s', settle default_config 0 (FetchOk "b" "id" "blob:1" 0) s = Some s'
      ∧ get default_config "k" 1800000 s' = (s', GetHit (media_of "b" "id" "blob:1" 0))
      ∧ (get default_config "k" 1800001 s').2 = GetMiss.
Proof.
  intros s. split; [reflexivity|]. eexists. split; [reflexivity|].
  split.
  - refine (proj1 (X2_stored_entry_served_until_ttl default_config s 0 "k"
                     "b" "id" "blob:1" 0 _ 1800000 eq_refl eq_refl) _).
    simpl. lia.
  - refine (proj1 (proj2 (X2_stored_entry_served_until_ttl default_config s 0 "k"
                     "b" "id" "blob:1" 0 _ 1800001 eq_refl eq_refl) _)).
    simpl. lia.
Defined.

(** X3. A fetch that comes back ok while the cache has room evicts
    nothing: no object URL is revoked, every other key keeps its entry,
    and the size grows by one for a new key and stays for a key that had
    an entry. *)
Theorem X3_store_with_room_evicts_nothing (cfg : Config) s p k b nano ou now s' :
  pending s p k →
  (jm_size (cache s) < maxSize cfg)%nat →
  settle cfg p (FetchOk b nano ou now) s = Some s' →
  revoked s' = revoked s
  ∧ cache s' = jm_set k (media_of b nano ou now) (cache s)
  ∧ (∀ k', k' ≠ k → jm_get k' (cache s') = jm_get k' (cache s))
  ∧ jm_size (cache s')
    = match jm_get k (cache s) with
      | Some _ => jm_size (cache s)
      | None => S (jm_size (cache s))
      end.
Proof.
  intros Hp Hroom. unfold settle. rewrite Hp. rewrite decide_False by lia.
  intros [= <-]. simpl. split; [done|]. split; [done|]. split.
  - intros k' Hne. by apply jm_get_set_ne.
  - unfold jm_size. generalize (cache s). intros m.
    induction m as [|[k2 v2] m IH]; simpl; [done|].
    destruct (decide (k = k2)) as [->|Hne]; simpl; [done|].
    rewrite IH. by destruct (jm_get k m).
Qed.

(** The theorem at a second key stored in a cache of one entry. *)
Lemma X3_witness :
  let s := after default_config
             [ELoad "a"; ESettle 0 (FetchOk "x" "i1" "blob:1" 0); ELoad "b"] in
  pending s 1 "b"
  ∧ ∃ s', settle default_config 1 (FetchOk "y" "i2" "blob:2" 5) s = Some s'
      ∧ revoked s' = []
      ∧ jm_get "a" (cache s') = Some (media_of "x" "i1" "blob:1" 0)
      ∧ jm_size (cache s') = 2%nat.
Proof.
  intros s. split; [reflexivity|]. eexists. split; [reflexivity|].
  assert (jm_size (cache s) < maxSize default_config)%nat as Hroom by (vm_compute; lia).
  destruct (X3_store_with_room_evicts_nothing default_config s 1 "b"
              "y" "i2" "blob:2" 5 _ eq_refl Hroom eq_refl) as (Hr & _ & Hk & Hn).
  split; [exact Hr|]. split; [|exact Hn].
  rewrite (Hk "a"); [reflexivity|done].
Defined.


(** *** [remove] *)

(** X4. [remove] of a key without an entry changes nothing.  [remove]
    of a key with an entry revokes the object URL of that entry and
    drops it, so the key has no entry afterwards.  Either way the other
    keys keep their entries, a second [remove] changes nothing more, and
    the promises are left alone: a fetch of the key that is out is not
    cancelled. *)
Theorem X4_remove_drops_one_entry url s :
  (jm_get url (cache s) = None → remove url s = s)
  ∧ (∀ item, jm_get url (cache s) = Some item →
       revoked (remove url s) = revoked s ++ [objectUrl item])
  ∧ jm_get url (cache (remove url s)) = None
  ∧ (∀ k, k ≠ url → jm_get k (cache (remove url s)) = jm_get k (cache s))
  ∧ remove url (remove url s) = remove url s
  ∧ same_registry s (remove url s).
Proof.
  assert (jm_get url (cache (remove url s)) = None) as Hgone.
  { unfold remove. destruct (jm_get url (cache s)) eqn:Hg; simpl; [|done].
    apply jm_get_delete. }
  split; [|split; [|split; [done|split; [|split]]]].
  - intros Hg. unfold remove. by rewrite Hg.
  - intros item Hg. unfold remove. by rewrite Hg.
  - intros k Hne. unfold remove. destruct (jm_get url (cache s)); simpl; [|done].
    by apply jm_get_delete_ne.
  - unfold remove at 1. by rewrite Hgone.
  - apply remove_registry.
Qed.

(** The theorem at a cache of two entries. *)
Lemma X4_witness :
  let s := after default_config
             [ELoad "a"; ESettle 0 (FetchOk "x" "i1" "blob:1" 0);
              ELoad "b"; ESettle 1 (FetchOk "y" "i2" "blob:2" 5)] in
  jm_get "a" (cache s) = Some (media_of "x" "i1" "blob:1" 0)
  ∧ revoked (remove "a" s) = ["blob:1"]
  ∧ jm_get "a" (cache (remove "a" s)) = None
  ∧ jm_get "b" (cache (remove "a" s)) = Some (media_of "y" "i2" "blob:2" 5)
  ∧ remove "c" s = s.
Proof.
  intros s.
  destruct (X4_remove_drops_one_entry "a" s) as (_ & Hr & Hgone & Hother & _).
  destruct (X4_remove_drops_one_entry "c" s) as (Hnone & _).
  split; [reflexivity|]. split; [exact (Hr _ eq_refl)|]. split; [exact Hgone|].
  split; [|exact (Hnone eq_refl)].
  rewrite (Hother "b"); [reflexivity|done].
Defined.

(** *** [clear] *)

Lemma clear_loop_exact (l : list (string * CachedMedia)) a :
  cache a = l → jm_wf l →
  revoked (foldl (λ acc e, remove e.1 acc) a l)
  = revoked a ++ ((λ e, objectUrl e.2) <$> l).
Proof.
  revert a. induction l as [|[k v] l IH]; intros a Hc Hwf; simpl.
  - by rewrite app_nil_r.
  - unfold jm_wf in Hwf. simpl in Hwf. apply NoDup_cons in Hwf as [Hnin Hnd].
    assert (remove k a = set_cache l (revokeObjectURL (objectUrl v) a)) as ->.
    { unfold remove. rewrite Hc. simpl. rewrite decide_True by done.
      simpl. rewrite Hc. simpl. rewrite decide_True by done.
      by rewrite jm_delete_absent. }
    rewrite IH by done. simpl. by rewrite <- app_assoc.
Qed.

Lemma clear_cleanupInterval s : cleanupInterval (clear s) = None.
Proof.
  unfold clear.
  destruct (cleanupInterval (foldl _ s (cache s))) eqn:Hc; simpl; done.
Qed.

Lemma clear_idle a :
  cache a = [] → cleanupInterval a = None → clear a = set_loadingPromises ∅ a.
Proof. intros Hc Hi. unfold clear. rewrite Hc. simpl. by rewrite Hi. Qed.

(** X5. [clear] revokes the object URL of every entry of the cache
    once, in the order of the cache, and nothing else; the promises that
    were handed out are neither settled nor dropped; and a second
    [clear] changes nothing. *)
Theorem X5_clear_revokes_each_entry_once (cfg : Config) evs s :
  run cfg evs new = Some s →
  revoked (clear s) = revoked s ++ ((λ e, objectUrl e.2) <$> cache s)
  ∧ promises (clear s) = promises s
  ∧ clear (clear s) = clear s.
Proof.
  intros Hrun. pose proof (reachable_wf cfg evs s Hrun) as Hwf.
  split; [|split; [apply clear_promises|]].
  - pose proof (clear_loop_exact (cache s) s eq_refl Hwf) as Hloop.
    unfold clear. destruct (cleanupInterval _); simpl; exact Hloop.
  - rewrite (clear_idle (clear s)) by (apply clear_cache || apply clear_cleanupInterval).
    unfold clear. destruct (cleanupInterval _); done.
Qed.

(** The theorem at a cache of two entries. *)
Lemma X5_witness :
  let evs := [ELoad "a"; ESettle 0 (FetchOk "x" "i1" "blob:1" 0);
              ELoad "b"; ESettle 1 (FetchOk "y" "i2" "blob:2" 7); ELoad "c"] in
  let s := after default_config evs in
  run default_config evs new = Some s
  ∧ revoked (clear s) = ["blob:1"; "blob:2"]
  ∧ pending (clear s) 2 "c".
Proof.
  intros evs s. assert (run default_config evs new = Some s) as Hrun by (vm_compute; reflexivity).
  split; [exact Hrun|].
  destruct (X5_clear_revokes_each_entry_once default_config evs s Hrun) as (Hr & Hp & _).
  split; [rewrite Hr; reflexivity|]. unfold pending. rewrite Hp. reflexivity.
Defined.

(** *** The interval, before [clear] *)

Lemma exec_keeps_interval cfg ev s s' h :
  ev ≠ EClear →
  cleanupInterval s = Some h ∧ intervals s = [h] →
  exec cfg ev s = Some s' →
  cleanupInterval s' = Some h ∧ intervals s' = [h].
Proof.
  intros Hev [Hc Hi]. destruct ev as [url now|url|url| |p o|h' now]; simpl.
  - intros [= <-]. destruct (get_registry cfg url now s) as (_ & _ & -> & -> & _).
    done.
  - intros [= <-]. by destruct (load_registry_timers url s) as [-> ->].
  - intros [= <-]. by destruct (remove_registry url s) as (_ & _ & -> & -> & _).
  - done.
  - intros Hs. by destruct (settle_registry_timers cfg p o s s' Hs) as [-> ->].
  - destruct (decide _); [|done]. intros [= <-].
    by destruct (sweep_registry cfg now s) as (_ & _ & -> & -> & _).
Qed.

(** X6. Until [clear] is called, the cache has exactly one cleanup
    interval, the one the constructor started: no method cancels it or
    starts another, so a tick of it is always possible and runs the
    sweep. *)
Theorem X6_one_interval_until_clear (cfg : Config) evs s :
  run cfg evs new = Some s →
  EClear ∉ evs →
  cleanupInterval s = cleanupInterval new
  ∧ intervals s = intervals new
  ∧ ∃ h, cleanupInterval s = Some h
         ∧ intervals s = [h]
         ∧ ∀ now, exec cfg (ETick h now) s = Some (sweep cfg now s).
Proof.
  intros Hrun Hnc.
  assert (cleanupInterval s = Some 1%positive ∧ intervals s = [1%positive]) as [Hc Hi].
  { assert (cleanupInterval new = Some 1%positive ∧ intervals new = [1%positive]) as H0
      by done.
    revert Hrun Hnc H0. generalize new. induction evs as [|ev evs IH]; simpl; intros s0.
    - by intros [= <-].
    - destruct (exec cfg ev s0) as [s1|] eqn:Hx; [|done].
      intros Hrun Hnc H0. apply not_elem_of_cons in Hnc as [Hne Hnc].
      apply (IH s1); [done|done|]. eapply exec_keeps_interval; eauto. }
  split; [done|]. split; [done|]. exists 1%positive.
  split; [done|]. split; [done|]. intros now. simpl. rewrite Hi.
  rewrite decide_True; [done|apply list_elem_of_here].
Qed.

(** The theorem after a load, a lookup, a tick and a removal. *)
Lemma X6_witness :
  let evs := [ELoad "k"; EGet "k" 3; ETick 1 10; ERemove "k"] in
  let s := after default_config evs in
  run default_config evs new = Some s
  ∧ intervals s = intervals new
  ∧ ∃ h, ∀ now, exec default_config (ETick h now) s
                = Some (sweep default_config now s).
Proof.
  intros evs s.
  assert (run default_config evs new = Some s) as Hrun by (vm_compute; reflexivity).
  split; [exact Hrun|].
  assert (EClear ∉ evs) as Hnc.
  { unfold evs. intros Hin. repeat (apply elem_of_cons in Hin as [Heq|Hin]; [done|]).
    by apply not_elem_of_nil in Hin. }
  destruct (X6_one_interval_until_clear default_config evs s Hrun Hnc)
    as (_ & Hi & h & _ & _ & Ht).
  split; [exact Hi|]. exists h. exact Ht.
Defined.

(** *** A full cache and a key that has an entry *)

Lemma jm_set_present_length {V} k (v : V) m :
  is_Some (jm_get k m) → length (jm_set k v m) = length m.
Proof.
  induction m as [|[k' v'] m IH]; simpl.
  - intros [? [=]].
  - destruct (decide (k = k')); simpl; [done|]. intros H. by rewrite IH.
Qed.

Lemma jm_set_absent {V} k (v : V) m :
  jm_get k m = None → jm_set k v m = m ++ [(k, v)].
Proof.
  induction m as [|[k' v'] m IH]; simpl; [done|].
  destruct (decide (k = k')); [done|]. intros H. by rewrite IH.
Qed.

(** X7. When the cache is full, a fetch that comes back ok evicts the
    oldest entry even if its own key has an entry already and no room is
    needed.  If the oldest entry belongs to another key, that key loses
    its entry and the cache ends one entry smaller; if it is the entry
    of the key itself, the new entry goes to the end of the order. *)
Theorem X7_full_cache_evicts_even_when_replacing
    (cfg : Config) evs s p k old b nano ou now s' :
  run cfg evs new = Some s →
  (maxSize cfg ≤ jm_size (cache s))%nat →
  pending s p k →
  jm_get k (cache s) = Some old →
  settle cfg p (FetchOk b nano ou now) s = Some s' →
  ∃ kO oldest,
    first_oldest (kO, oldest) (cache s)
    ∧ revoked s' = revoked s ++ [objectUrl oldest]
    ∧ (kO ≠ k →
         jm_get kO (cache s') = None
         ∧ S (jm_size (cache s')) = jm_size (cache s))
    ∧ (kO = k →
         cache s' = jm_delete k (cache s) ++ [(k, media_of b nano ou now)]
         ∧ jm_size (cache s') = jm_size (cache s)).
Proof.
  intros Hrun Hfull Hp Hold. pose proof (reachable_wf cfg evs s Hrun) as Hwf.
  unfold settle. rewrite Hp. rewrite decide_True by done. intros [= <-]. simpl.
  assert (cache s ≠ []) as Hne by (intros Heq; by rewrite Heq in Hold).
  destruct (removeOldest_spec s Hwf Hne) as (kO & oldest & Hfirst & Hc & Hr & _).
  exists kO, oldest. rewrite Hc, Hr. split; [done|]. split; [done|].
  destruct Hfirst as (l1 & l2 & Hm & _).
  assert (jm_delete kO (cache s) = l1 ++ l2) as Hdel.
  { rewrite Hm. apply jm_delete_middle. by rewrite <- Hm. }
  assert (length (cache s) = S (length (l1 ++ l2))) as Hlen.
  { rewrite Hm, !length_app. simpl. lia. }
  unfold jm_size. split.
  - intros Hneq. split.
    + rewrite jm_get_set_ne by done. apply jm_get_delete.
    + rewrite jm_set_present_length; [by rewrite Hdel, Hlen|].
      rewrite jm_get_delete_ne by done. eauto.
  - intros ->. rewrite (jm_set_absent k _ (jm_delete k (cache s)))
      by apply jm_get_delete.
    split; [done|]. rewrite length_app, Hdel, Hlen. simpl. lia.
Qed.

(** The theorem at a cache of two entries, full, whose younger key is
    fetched again. *)
Lemma X7_witness :
  let cfg := mkConfig 2 1800000 3 in
  let evs := [ELoad "a"; ESettle 0 (FetchOk "x" "i1" "blob:1" 0);
              ELoad "b"; ESettle 1 (FetchOk "y" "i2" "blob:2" 5); ELoad "b"] in
  let s := after cfg evs in
  run cfg evs new = Some s
  ∧ ∃ s', settle cfg 2 (FetchOk "z" "i3" "blob:3" 9) s = Some s'
      ∧ (cache s').*1 = ["b"]
      ∧ revoked s' = ["blob:1"]
      ∧ ∃ kO oldest, first_oldest (kO, oldest) (cache s)
          ∧ revoked s' = revoked s ++ [objectUrl oldest].
Proof.
  intros cfg evs s. assert (run cfg evs new = Some s) as Hrun by (vm_compute; reflexivity).
  split; [exact Hrun|]. eexists. split; [reflexivity|].
  split; [reflexivity|]. split; [reflexivity|].
  assert (maxSize cfg ≤ jm_size (cache s))%nat as Hfull by (vm_compute; lia).
  destruct (X7_full_cache_evicts_even_when_replacing cfg evs s 2 "b"
              (media_of "y" "i2" "blob:2" 5) "z" "i3" "blob:3" 9 _
              Hrun Hfull eq_refl eq_refl eq_refl) as (kO & oldest & H1 & H2 & _).
  exists kO, oldest. split; [exact H1|exact H2].
Defined.

End CacheExtras.

(** ** More on the loader component *)
Module LoaderExtras.
Import MediaContent MediaView.

(** *** How often the network is asked *)

(** The budget of a round that started with [fetches] at [n0]. *)
Lemma loadMedia_budget network n0 c :
  (fetches c ≤ n0 + retryCount c)%nat → (retryCount c ≤ 2)%nat → timer c = false →
  let c' := loadMedia network c in
  (fetches c' ≤ n0 + S (retryCount c'))%nat
  ∧ (retryCount c' ≤ 2)%nat
  ∧ (timer c' = true → (fetches c' ≤ n0 + retryCount c')%nat).
Proof.
  intros Hf Hr Ht. unfold loadMedia, loadMedia_begin.
  destruct (decide (url c = "")); [simpl; rewrite Ht; split; [lia|done]|].
  destruct (mountedRef c) eqn:Hm; simpl; [|rewrite Ht; split; [lia|done]].
  assert (let c' := loadMedia_resume (network (fetches (fetch c))) (fetch c) in
          (fetches c' ≤ n0 + S (retryCount c'))%nat
          ∧ (retryCount c' ≤ 2)%nat
          ∧ (timer c' = true → (fetches c' ≤ n0 + retryCount c')%nat)) as Hres.
  { unfold loadMedia_resume. destruct (network _) as [b ou|msg]; simpl; rewrite Hm; simpl.
    - rewrite Ht. split; [lia|done].
    - destruct (decide (retryCount c < 2)%nat); simpl.
      + split; [lia|]. split; [lia|]. intros _. lia.
      + rewrite Ht. split; [lia|done]. }
  destruct (mediaCache c !! url c) as [[b ou []]|]; simpl.
  - rewrite Ht. split; [lia|done].
  - destruct (String.prefix "blob:" (url c)); simpl; [rewrite Ht; split; [lia|done]|].
    exact Hres.
  - destruct (String.prefix "blob:" (url c)); simpl; [rewrite Ht; split; [lia|done]|].
    exact Hres.
Qed.

Lemma run_budget network n0 fuel c :
  (fetches c ≤ n0 + S (retryCount c))%nat → (retryCount c ≤ 2)%nat →
  (timer c = true → (fetches c ≤ n0 + retryCount c)%nat) →
  (fetches (run network fuel c) ≤ n0 + 3)%nat.
Proof.
  revert c. induction fuel as [|n IH]; simpl; intros c Hf Hr Ht; [lia|].
  unfold fire. destruct (timer c) eqn:Htc.
  - destruct (loadMedia_budget network n0 (timer_fired c)) as (H1 & H2 & H3);
      [simpl; auto|done|done|].
    by apply IH.
  - apply IH; [done|done|]. by rewrite Htc.
Qed.

(** X8. However the network answers, a component that is given a [url]
    calls [fetch] at most three times for it: the first call and the two
    retries. *)
Theorem X8_at_most_three_fetches_per_request
    (network : nat → Response) u (cache0 : gmap string CacheItem) fuel :
  (fetches (run network fuel (request network (mounted u cache0))) ≤ 3)%nat.
Proof.
  unfold request.
  destruct (loadMedia_budget network 0 (reset (mounted u cache0))) as (H1 & H2 & H3);
    [simpl; lia|simpl; lia|done|].
  by apply (run_budget network 0).
Qed.

(** X9. A click on Retry, when no retry is waiting, starts a round of
    its own: the counter is reset and at most three more calls of
    [fetch] follow, however the network answers. *)
Theorem X9_retry_click_allows_three_more
    (network : nat → Response) c fuel :
  timer c = false →
  (fetches (run network fuel (retryClick network c)) ≤ fetches c + 3)%nat.
Proof.
  intros Ht. unfold retryClick.
  destruct (loadMedia_budget network (fetches c) (set_retryCount 0 c)) as (H1 & H2 & H3);
    [simpl; lia|simpl; lia|done|].
  by apply (run_budget network (fetches c)).
Qed.

(** The theorem at a component that gave up, with a network that keeps
    failing: the click brings three more calls. *)
Lemma X9_witness :
  let network := λ _ : nat, ResponseError "Failed to fetch" in
  let c := run network 5 (request network (mounted "http://h/a.png" ∅)) in
  timer c = false
  ∧ fetches c = 3%nat
  ∧ fetches (run network 5 (retryClick network c)) = 6%nat
  ∧ (fetches (run network 5 (retryClick network c)) ≤ fetches c + 3)%nat.
Proof.
  intros network c. split; [reflexivity|]. split; [reflexivity|]. split; [reflexivity|].
  exact (X9_retry_click_allows_three_more network c 5 eq_refl).
Defined.

(** *** Media that is in the cache *)

(** X10. Once a component has stored the media of a [url], every call of
    [loadMedia] for that [url], by this component or by another one that
    is mounted, shows the stored object URL without calling [fetch] and
    without scheduling anything. *)
Theorem X10_loaded_media_is_not_fetched_again
    (network : nat → Response) c b ou c2 :
  mountedRef c = true →
  url c2 = url c → url c ≠ "" → mountedRef c2 = true →
  mediaCache c2 = mediaCache (loadMedia_resume (ResponseOk b ou) c) →
  let c' := loadMedia network c2 in
  fetches c' = fetches c2
  ∧ objectUrl c' = ou
  ∧ isLoading c' = false
  ∧ onLoadCalls c' = S (onLoadCalls c2)
  ∧ timeouts c' = timeouts c2
  ∧ timer c' = timer c2
  ∧ mediaCache c' = mediaCache c2.
Proof.
  intros Hm Hu Hne Hm2 Hc.
  assert (mediaCache c2 !! url c2 = Some (mkItem b ou true)) as Hhit.
  { rewrite Hc. unfold loadMedia_resume. rewrite Hm. simpl.
    by rewrite Hu, lookup_insert_eq. }
  unfold loadMedia, loadMedia_begin.
  rewrite decide_False by congruence. rewrite Hm2, Hhit. simpl. done.
Qed.

(** The theorem at a second component for a [url] that a first one has
    loaded. *)
Lemma X10_witness :
  let network := λ _ : nat, ResponseOk "bytes" "blob:1" in
  let c1 := request network (mounted "http://h/a.png" ∅) in
  let c2 := mounted "http://h/a.png" (mediaCache c1) in
  fetches c1 = 1%nat
  ∧ fetches (request (λ _, ResponseError "offline") c2) = 0%nat
  ∧ objectUrl (loadMedia (λ _, ResponseError "offline") c2) = "blob:1".
Proof.
  intros network c1 c2. split; [reflexivity|]. split; [reflexivity|].
  assert ("http://h/a.png" ≠ "") as Hne by done.
  exact (proj1 (proj2 (X10_loaded_media_is_not_fetched_again
           (λ _, ResponseError "offline") (fetch (reset (mounted "http://h/a.png" ∅)))
           "bytes" "blob:1" c2 eq_refl eq_refl Hne eq_refl eq_refl))).
Defined.

(** X11. A [url] that is an object URL already ([blob:]) is shown as it
    is: [loadMedia] never calls [fetch] for it, stores nothing in the
    cache and schedules nothing. *)
Theorem X11_blob_url_is_not_fetched (network : nat → Response) c :
  String.prefix "blob:" (url c) = true → mountedRef c = true →
  let c' := loadMedia network c in
  fetches c' = fetches c
  ∧ mediaCache c' = mediaCache c
  ∧ timeouts c' = timeouts c
  ∧ timer c' = timer c
  ∧ isLoading c' = false
  ∧ onLoadCalls c' = S (onLoadCalls c)
  ∧ (mediaCache c !! url c = None → objectUrl c' = url c).
Proof.
  intros Hb Hm. unfold loadMedia, loadMedia_begin.
  destruct (decide (url c = "")) as [He|_]; [by rewrite He in Hb|].
  rewrite Hm, Hb. simpl.
  destruct (mediaCache c !! url c) as [[b ou []]|]; simpl; done.
Qed.

(** The theorem at an object URL. *)
Lemma X11_witness :
  let c := request (λ _, ResponseError "offline") (mounted "blob:http://h/1" ∅) in
  fetches c = 0%nat ∧ objectUrl c = "blob:http://h/1" ∧ isLoading c = false.
Proof.
  intros c.
  destruct (X11_blob_url_is_not_fetched (λ _, ResponseError "offline")
              (reset (mounted "blob:http://h/1" ∅)) eq_refl eq_refl)
    as (Hf & _ & _ & _ & Hl & _ & Ho).
  split; [exact Hf|]. split; [exact (Ho eq_refl)|exact Hl].
Defined.

(** *** A component that is gone *)

(** X12. When the component is unmounted while its fetch is out, the
    answer changes nothing that can be seen: no state is set, no
    callback is called, nothing is stored in the cache and no retry is
    scheduled; the object URL made for an answer that is ok is revoked
    at once. *)
Theorem X12_answer_after_unmount_is_dropped (r : Response) c :
  let c' := loadMedia_resume r (unmount c) in
  error c' = error c
  ∧ isLoading c' = isLoading c
  ∧ objectUrl c' = objectUrl c
  ∧ mediaCache c' = mediaCache c
  ∧ onLoadCalls c' = onLoadCalls c
  ∧ onErrorCalls c' = onErrorCalls c
  ∧ retryCount c' = retryCount c
  ∧ timeouts c' = timeouts c
  ∧ timer c' = timer c
  ∧ revokedUrls c'
    = match r with
      | ResponseOk _ ou => revokedUrls c ++ [ou]
      | ResponseError _ => revokedUrls c
      end
  ∧ ∀ network, loadMedia network c' = c'.
Proof.
  destruct r as [b ou|msg]; simpl; repeat split; try done;
    intros network; unfold loadMedia, loadMedia_begin; simpl;
    by destruct (decide _).
Qed.

(** *** An error that stays *)

(** X13. The branch of [loadMedia] that finds the [url] in the cache
    sets the object URL and calls [onLoad], but does not clear the
    error.  So a component that shows an error, because an attempt
    failed or because the element could not show the media, goes on
    showing the error view when a retry, by the timer or by the button,
    finds the media in the cache. *)
Theorem X13_cache_hit_keeps_the_error
    (network : nat → Response) type c e b ou :
  error c = Some e → e ≠ "" →
  url c ≠ "" → mountedRef c = true →
  mediaCache c !! url c = Some (mkItem b ou true) →
  render type (retryClick network c) = ErrorView e
  ∧ render type (fire network c) = ErrorView e
  ∧ onLoadCalls (retryClick network c) = S (onLoadCalls c)
  ∧ fetches (retryClick network c) = fetches c.
Proof.
  intros He Hne Hu Hm Hc.
  assert (∀ c0, url c0 = url c → mountedRef c0 = true → mediaCache c0 = mediaCache c →
                error c0 = Some e →
                loadMedia network c0 = onLoad (show ou (error c0) c0)) as Hhit.
  { intros c0 H1 H2 H3 H4. unfold loadMedia, loadMedia_begin.
    rewrite decide_False by congruence. rewrite H2. simpl. by rewrite H3, H1, Hc. }
  assert (∀ c0, error c0 = Some e → render type c0 = ErrorView e) as Hview.
  { intros c0 H0. unfold render, truthy. rewrite H0. by rewrite decide_False. }
  split; [|split; [|split]].
  - apply Hview. unfold retryClick. by rewrite Hhit.
  - apply Hview. unfold fire. destruct (timer c); [|done]. by rewrite Hhit.
  - unfold retryClick. by rewrite Hhit.
  - unfold retryClick. by rewrite Hhit.
Qed.

(** The theorem at an image that is in the cache and that the [img]
    element failed to show. *)
Lemma X13_witness :
  let network := λ _ : nat, ResponseOk "bytes" "blob:1" in
  let c := elementError image (request network (mounted "http://h/a.png" ∅)) in
  render image c = ErrorView "Failed to load image"
  ∧ render image (retryClick network c) = ErrorView "Failed to load image".
Proof.
  intros network c. split; [reflexivity|].
  assert ("Failed to load image" ≠ "") as H1 by done.
  assert ("http://h/a.png" ≠ "") as H2 by done.
  exact (proj1 (X13_cache_hit_keeps_the_error network image c "Failed to load image"
                  "bytes" "blob:1" eq_refl H1 H2 eq_refl eq_refl)).
Defined.


(** *** What the cache of the loader keeps *)

Lemma loadMedia_keeps_entry network c k item :
  mediaCache c !! k = Some item → item_loaded item = true →
  mediaCache (loadMedia network c) !! k = Some item.
Proof.
  intros Hk Hl. unfold loadMedia, loadMedia_begin.
  destruct (decide (url c = "")); [done|].
  destruct (mountedRef c) eqn:Hm; simpl; [|done].
  assert (mediaCache c !! url c = None
          ∨ (∃ b ou, mediaCache c !! url c = Some (mkItem b ou false)) →
          mediaCache (loadMedia_resume (network (fetches (fetch c))) (fetch c)) !! k
          = Some item) as Hres.
  { intros Hmiss. assert (k ≠ url c) as Hne.
    { intros ->. destruct Hmiss as [Hn|(b & ou & Hn)]; rewrite Hn in Hk; [done|].
      injection Hk as <-. done. }
    unfold loadMedia_resume. destruct (network _) as [b ou|msg]; simpl; rewrite Hm; simpl.
    - by rewrite lookup_insert_ne.
    - by destruct (decide _). }
  destruct (mediaCache c !! url c) as [[b ou []]|] eqn:Hu; simpl; [done| |].
  - destruct (String.prefix "blob:" (url c)); [done|]. apply Hres. right. eauto.
  - destruct (String.prefix "blob:" (url c)); [done|]. apply Hres. by left.
Qed.

(** X14. The cache of the loader only grows: an entry that is stored is
    never removed and never replaced, whatever is loaded afterwards and
    however the network answers. *)
Theorem X14_loader_cache_never_drops_an_entry
    (network : nat → Response) fuel c k item :
  mediaCache c !! k = Some item → item_loaded item = true →
  mediaCache (run network fuel (loadMedia network c)) !! k = Some item
  ∧ mediaCache (run network fuel (retryClick network c)) !! k = Some item.
Proof.
  intros Hk Hl.
  assert (∀ c0, mediaCache c0 !! k = Some item →
                mediaCache (run network fuel c0) !! k = Some item) as Hrun.
  { induction fuel as [|n IH]; simpl; intros c0 H0; [done|].
    apply IH. unfold fire. destruct (timer c0); [|done].
    by apply loadMedia_keeps_entry. }
  split; apply Hrun.
  - by apply loadMedia_keeps_entry.
  - unfold retryClick. by apply loadMedia_keeps_entry.
Qed.

(** The theorem at a cache with one entry and a component that loads
    another [url]. *)
Lemma X14_witness :
  let network := λ _ : nat, ResponseOk "bytes" "blob:2" in
  let cache0 : gmap string CacheItem := {[ "http://h/a.png" := mkItem "old" "blob:1" true ]} in
  let c := run network 3 (request network (mounted "http://h/b.png" cache0)) in
  mediaCache c !! "http://h/b.png" = Some (mkItem "bytes" "blob:2" true)
  ∧ mediaCache c !! "http://h/a.png" = Some (mkItem "old" "blob:1" true).
Proof.
  intros network cache0 c. split; [reflexivity|].
  exact (proj1 (X14_loader_cache_never_drops_an_entry network 3
                  (reset (mounted "http://h/b.png" cache0)) "http://h/a.png"
                  (mkItem "old" "blob:1" true) eq_refl eq_refl)).
Defined.

End LoaderExtras.

(** ** The media element of the reader *)
Module SimpleMediaProps.
Import SimpleMedia.

(** The ref is an element only when no error is shown, and the only
    error the component ever sets is its one message. *)
Lemma exec_keeps_ref ev c :
  (mediaRef c = true → MediaView.truthy (error c) = false)
  ∧ (error c = None ∨ error c = Some "Failed to load media") →
  (mediaRef (exec ev c) = true → MediaView.truthy (error (exec ev c)) = false)
  ∧ (error (exec ev c) = None ∨ error (exec ev c) = Some "Failed to load media").
Proof.
  intros [Href Herr]. destruct ev as [| | |u|]; simpl.
  - unfold handleLoad. destruct (mountedRef c) eqn:Hm; [|done].
    unfold commit, render. simpl. split; [|done].
    by destruct (MediaView.truthy (error c)).
  - unfold handleError. destruct (mountedRef c) eqn:Hm; [|done].
    unfold commit, render. simpl. split; [done|by right].
  - unfold handleRetry. destruct (mediaRef c) eqn:Hr; [|split; [by rewrite Hr|done]].
    unfold commit, render. simpl. split; [done|by left].
  - unfold urlChange, commit, render. simpl. split; [done|by left].
  - unfold unmount. simpl. done.
Qed.

Lemma run_keeps_ref evs c :
  (mediaRef c = true → MediaView.truthy (error c) = false)
  ∧ (error c = None ∨ error c = Some "Failed to load media") →
  (mediaRef (run evs c) = true → MediaView.truthy (error (run evs c)) = false)
  ∧ (error (run evs c) = None ∨ error (run evs c) = Some "Failed to load media").
Proof.
  revert c. induction evs as [|ev evs IH]; intros c Hc; [done|].
  apply (IH (exec ev c)). by apply exec_keeps_ref.
Qed.

Lemma exec_error_stays ev c :
  (∀ u, ev ≠ EUrl u) →
  error c = Some "Failed to load media" → mediaRef c = false →
  error (exec ev c) = Some "Failed to load media"
  ∧ mediaRef (exec ev c) = false
  ∧ srcAssignments (exec ev c) = srcAssignments c.
Proof.
  intros Hev He Hr. destruct ev as [| | |u|]; simpl.
  - unfold handleLoad. destruct (mountedRef c); [|done].
    unfold commit, render. simpl. by rewrite He.
  - unfold handleError. destruct (mountedRef c); [|done].
    unfold commit, render. simpl. done.
  - unfold handleRetry. by rewrite Hr.
  - by destruct (Hev u).
  - done.
Qed.

(** X15. The Retry button of the error view does nothing.  The error
    view holds no media element, so [mediaRef.current] is [null] when
    the button can be clicked and [handleRetry] returns at its guard.
    Once the component shows the error, neither clicks on Retry nor
    events of the element bring the media back: the error view stays,
    and [src] is never assigned again, until the parent passes another
    [url]. *)
Theorem X15_retry_button_does_nothing u evs evs' message :
  let c := run evs (mount u) in
  render c = ErrorView message →
  (∀ u', EUrl u' ∉ evs') →
  handleRetry c = c
  ∧ render (run evs' c) = ErrorView "Failed to load media"
  ∧ srcAssignments (run evs' c) = srcAssignments c.
Proof.
  intros c Hview Hevs.
  destruct (run_keeps_ref evs (mount u)) as [Href Herr]; [by split; [|left]|].
  fold c in Href, Herr.
  assert (error c = Some "Failed to load media") as He.
  { destruct Herr as [Hn|Hs]; [|done]. unfold render in Hview. by rewrite Hn in Hview. }
  assert (mediaRef c = false) as Hr.
  { destruct (mediaRef c); [|done]. specialize (Href eq_refl). by rewrite He in Href. }
  split; [unfold handleRetry; by rewrite Hr|].
  assert (∀ c0, error c0 = Some "Failed to load media" → mediaRef c0 = false →
                error (run evs' c0) = Some "Failed to load media"
                ∧ srcAssignments (run evs' c0) = srcAssignments c0) as Hstay.
  { clear -Hevs. induction evs' as [|ev evs' IH]; intros c0 H1 H2; [done|].
    assert (∀ u, ev ≠ EUrl u) as Hev.
    { intros u' ->. apply (Hevs u'). apply list_elem_of_here. }
    destruct (exec_error_stays ev c0 Hev H1 H2) as (E1 & E2 & E3).
    destruct (IH (λ u' Hin, Hevs u' (list_elem_of_further _ _ _ Hin)) (exec ev c0) E1 E2)
      as [F1 F2].
    split; [exact F1|]. simpl in F2 |- *. by rewrite F2. }
  destruct (Hstay c He Hr) as [H1 H2]. split; [|done].
  unfold render. by rewrite H1.
Qed.

(** The theorem at an image that failed: three clicks on Retry and a
    late load event later the error is still shown. *)
Lemma X15_witness :
  let c := run [ELoad; EError] (mount "http://h/a.png") in
  render c = ErrorView "Failed to load media"
  ∧ handleRetry c = c
  ∧ render (run [ERetry; ERetry; ELoad; ERetry] c) = ErrorView "Failed to load media".
Proof.
  intros c.
  assert (∀ u', EUrl u' ∉ [ERetry; ERetry; ELoad; ERetry]) as Hevs.
  { intros u' Hin. repeat (apply elem_of_cons in Hin as [Heq|Hin]; [done|]).
    by apply not_elem_of_nil in Hin. }
  destruct (X15_retry_button_does_nothing "http://h/a.png" [ELoad; EError]
              [ERetry; ERetry; ELoad; ERetry] "Failed to load media" eq_refl Hevs)
    as (H1 & H2 & _).
  split; [reflexivity|]. split; [exact H1|exact H2].
Defined.

(** X16. After the component is unmounted no event reaches the parent:
    [onLoad] and [onError] are not called again and [src] is not
    assigned, whatever events arrive. *)
Theorem X16_no_callback_after_unmount evs c :
  onLoadCalls (run evs (unmount c)) = onLoadCalls c
  ∧ onErrorCalls (run evs (unmount c)) = onErrorCalls c
  ∧ srcAssignments (run evs (unmount c)) = srcAssignments c.
Proof.
  assert (∀ c0, mountedRef c0 = false → mediaRef c0 = false →
                onLoadCalls (run evs c0) = onLoadCalls c0
                ∧ onErrorCalls (run evs c0) = onErrorCalls c0
                ∧ srcAssignments (run evs c0) = srcAssignments c0) as Hgone.
  { induction evs as [|ev evs IH]; intros c0 Hm Hr; [done|].
    assert (mountedRef (exec ev c0) = false ∧ mediaRef (exec ev c0) = false
            ∧ onLoadCalls (exec ev c0) = onLoadCalls c0
            ∧ onErrorCalls (exec ev c0) = onErrorCalls c0
            ∧ srcAssignments (exec ev c0) = srcAssignments c0) as (E1 & E2 & E3 & E4 & E5).
    { destruct ev as [| | |u|]; simpl.
      - unfold handleLoad. by rewrite Hm.
      - unfold handleError. by rewrite Hm.
      - unfold handleRetry. by rewrite Hr.
      - unfold urlChange, commit, render. simpl. rewrite Hm. done.
      - done. }
    destruct (IH (exec ev c0) E1 E2) as (F1 & F2 & F3).
    simpl in *. by rewrite F1, F2, F3. }
  apply (Hgone (unmount c)); done.
Qed.

End SimpleMediaProps.

(** ** The pages of the reader *)
Module ReaderProps.
Import Reader.

(** X17. The buttons of the reader keep the page within the comic:
    from a page of the comic, any sequence of clicks on Previous and
    Next ends on a page of the comic.  On the first page Previous
    changes nothing and on the last page Next changes nothing, also not
    the set of loaded panels; elsewhere Next followed by Previous comes
    back to the page, with the set of loaded panels emptied. *)
Theorem X17_reader_stays_within_the_comic (s : State) clicks :
  0 ≤ currentPageIndex s < Z.of_nat (totalPages s) →
  (let s' := foldl (λ s b, click b s) s clicks in
   0 ≤ currentPageIndex s' < Z.of_nat (totalPages s')
   ∧ totalPages s' = totalPages s)
  ∧ (currentPageIndex s = 0 → handlePrevPage s = s)
  ∧ (currentPageIndex s = Z.of_nat (totalPages s) - 1 → handleNextPage s = s)
  ∧ (currentPageIndex s < Z.of_nat (totalPages s) - 1 →
       handlePrevPage (handleNextPage s)
       = mkState (currentPageIndex s) (totalPages s) ∅).
Proof.
  intros Hin. split; [|split; [|split]].
  - revert s Hin. induction clicks as [|b clicks IH]; intros s Hin; simpl; [done|].
    assert (0 ≤ currentPageIndex (click b s) < Z.of_nat (totalPages (click b s))
            ∧ totalPages (click b s) = totalPages s) as [H1 H2].
    { destruct b; simpl; unfold handlePrevPage, handleNextPage;
        destruct (decide _); simpl; (split; [lia|done]). }
    destruct (IH (click b s) H1) as [H3 H4]. split; [done|]. by rewrite H4.
  - intros H0. unfold handlePrevPage. rewrite decide_False by lia. done.
  - intros Hl. unfold handleNextPage. rewrite decide_False by lia. done.
  - intros Hl. unfold handleNextPage. rewrite decide_True by lia.
    unfold handlePrevPage. simpl. rewrite decide_True by lia. simpl.
    f_equal. lia.
Qed.

(** The theorem at the second of three pages. *)
Lemma X17_witness :
  let s := mkState 1 3 {[ "p1" ]} in
  currentPageIndex (foldl (λ s b, click b s) s [Next; Next; Next; Prev]) = 1
  ∧ handlePrevPage (handleNextPage (mkState 0 3 {[ "p1" ]})) = mkState 0 3 ∅.
Proof.
  intros s. split; [reflexivity|].
  refine (proj2 (proj2 (proj2 (X17_reader_stays_within_the_comic
            (mkState 0 3 {[ "p1" ]}) [] _))) _); simpl; lia.
Defined.

End ReaderProps.

(** ** The store of comics *)
Module StoreProps.
Import ComicStore.

Section store.
Context {PR CR : Type}.
Abbreviation Panel := (Panel.t PR).
Abbreviation Comic := (Comic.t Panel CR).
Implicit Types (st : Store PR CR) (cur c : Comic) (l : list Comic).

Lemma findIndex_Some {A} (f : A → bool) (l : list A) i :
  findIndex f l = Some i →
  ∃ x, l !! i = Some x ∧ f x = true
       ∧ ∀ j y, (j < i)%nat → l !! j = Some y → f y = false.
Proof.
  revert i. induction l as [|x l IH]; intros i; simpl; [done|].
  destruct (f x) eqn:Hfx.
  - intros [= <-]. exists x. split; [done|]. split; [done|]. intros j y Hj. lia.
  - destruct (findIndex f l) as [i'|]; simpl; [|done]. intros [= <-].
    destruct (IH i' eq_refl) as (y & Hy & Hfy & Hmin).
    exists y. split; [done|]. split; [done|].
    intros [|j] z Hj; simpl; [by intros [= <-]|]. apply Hmin. lia.
Qed.

Lemma findIndex_None {A} (f : A → bool) (l : list A) :
  findIndex f l = None → ∀ x, x ∈ l → f x = false.
Proof.
  induction l as [|x l IH]; simpl; intros Hn y Hy.
  - by apply not_elem_of_nil in Hy.
  - destruct (f x) eqn:Hfx; [done|].
    destruct (findIndex f l); [done|].
    apply elem_of_cons in Hy as [->|Hy]; [done|]. by apply IH.
Qed.

Lemma findIndex_first {A} (f : A → bool) (l : list A) i x :
  l !! i = Some x → f x = true →
  (∀ j y, (j < i)%nat → l !! j = Some y → f y = false) →
  findIndex f l = Some i.
Proof.
  revert i. induction l as [|z l IH]; intros i; simpl; [done|].
  destruct i as [|i]; simpl.
  - intros [= ->] -> _. done.
  - intros Hx Hfx Hmin. rewrite (Hmin 0%nat z) by (done || lia).
    rewrite (IH i Hx Hfx); [done|]. intros j y Hj Hy. apply (Hmin (S j)); [lia|done].
Qed.

(** *** Publishing *)

(** X18. [publishComic] puts the current comic into the list of
    published comics in the place of the first comic of the same [id],
    or at the end when there is none, and leaves the other comics where
    they are.  The list keeps the [id]s it had, plus the new one: a list
    with one comic per [id] stays so.  The store is then back on the
    home view: no current comic, page 0, not in creator mode. *)
Theorem X18_publish_replaces_by_id st cur :
  currentComic st = Some cur →
  let st' := publishComic st in
  currentComic st' = None ∧ currentPageIndex st' = 0 ∧ isCreatorMode st' = false
  ∧ cur ∈ publishedComics st'
  ∧ Comic.id <$> publishedComics st'
    = (if decide (Comic.id cur ∈ Comic.id <$> publishedComics st)
       then Comic.id <$> publishedComics st
       else (Comic.id <$> publishedComics st) ++ [Comic.id cur])
  ∧ (NoDup (Comic.id <$> publishedComics st) →
     NoDup (Comic.id <$> publishedComics st'))
  ∧ (∀ i c, publishedComics st !! i = Some c → Comic.id c ≠ Comic.id cur →
            publishedComics st' !! i = Some c).
Proof.
  intros Hcur. unfold publishComic. rewrite Hcur. simpl.
  split; [done|]. split; [done|]. split; [done|].
  set (f := λ c : Comic, bool_decide (Comic.id c = Comic.id cur)).
  destruct (findIndex f (publishedComics st)) as [i|] eqn:Hfi.
  - destruct (findIndex_Some f _ i Hfi) as (x & Hx & Hfx & _).
    apply bool_decide_eq_true in Hfx.
    assert (Comic.id <$> <[i:=cur]> (publishedComics st)
            = Comic.id <$> publishedComics st) as Hids.
    { rewrite list_fmap_insert. apply list_insert_id.
      rewrite list_lookup_fmap, Hx. simpl. by rewrite Hfx. }
    split.
    { apply list_elem_of_lookup. exists i. apply list_lookup_insert_eq.
      by apply lookup_lt_Some in Hx. }
    split.
    { rewrite Hids. rewrite decide_True; [done|].
      apply list_elem_of_fmap. exists x. split; [done|].
      apply list_elem_of_lookup. eauto. }
    split; [by rewrite Hids|].
    intros j c Hj Hne. rewrite list_lookup_insert_ne; [done|].
    intros ->. rewrite Hx in Hj. injection Hj as <-. done.
  - pose proof (findIndex_None f _ Hfi) as Hnone.
    assert (Comic.id cur ∉ Comic.id <$> publishedComics st) as Hnin.
    { intros Hin. apply list_elem_of_fmap in Hin as (x & Hid & Hx).
      apply Hnone in Hx. apply bool_decide_eq_false in Hx. done. }
    split; [apply elem_of_app; right; apply list_elem_of_here|].
    split; [rewrite fmap_app; by rewrite decide_False|].
    split.
    { intros Hnd. rewrite fmap_app. apply NoDup_app. split; [done|]. split.
      - intros x Hx Hx'. apply list_elem_of_singleton in Hx' as ->. done.
      - apply NoDup_singleton. }
    intros j c Hj _. by apply lookup_app_l_Some.
Qed.

(** X19. Publishing the same comic again changes nothing: the list of
    published comics after the second [publishComic] is the list after
    the first. *)
Theorem X19_publish_twice_is_publish_once st cur :
  currentComic st = Some cur →
  let st' := publishComic st in
  publishedComics
    (publishComic (mkStore (publishedComics st') (Some cur)
                           (currentPageIndex st') (isCreatorMode st')))
  = publishedComics st'.
Proof.
  intros Hcur.
  set (f := λ c : Comic, bool_decide (Comic.id c = Comic.id cur)).
  assert (f cur = true) as Hfc by (by apply bool_decide_eq_true).
  assert (publishComic st
          = mkStore (match findIndex f (publishedComics st) with
                     | Some i => <[i:=cur]> (publishedComics st)
                     | None => publishedComics st ++ [cur]
                     end) None 0 false) as ->.
  { unfold publishComic. by rewrite Hcur. }
  unfold publishComic. simpl. fold f.
  destruct (findIndex f (publishedComics st)) as [i|] eqn:Hfi.
  - destruct (findIndex_Some f _ i Hfi) as (x & Hx & Hfx & Hmin).
    pose proof (lookup_lt_Some _ _ _ Hx) as Hlt.
    rewrite (findIndex_first f _ i cur).
    + by rewrite list_insert_insert_eq.
    + by apply list_lookup_insert_eq.
    + done.
    + intros j y Hj Hy. rewrite list_lookup_insert_ne in Hy by lia. eauto.
  - pose proof (findIndex_None f _ Hfi) as Hnone.
    rewrite (findIndex_first f _ (length (publishedComics st)) cur).
    + rewrite insert_app_r_alt by lia. by rewrite Nat.sub_diag.
    + rewrite lookup_app_r by lia. by rewrite Nat.sub_diag.
    + done.
    + intros j y Hj Hy. rewrite lookup_app_l in Hy by lia.
      apply Hnone. apply list_elem_of_lookup. eauto.
Qed.

(** X20. [unpublishComic] leaves no comic of the given [id] and keeps
    the others in their order.  It undoes the publishing of a comic
    whose [id] was new: the list of published comics is what it was. *)
Theorem X20_unpublish_undoes_publish st comicId :
  (comicId ∉ (Comic.id <$> publishedComics (unpublishComic comicId st)))
  ∧ (∀ c, c ∈ publishedComics (unpublishComic comicId st)
          ↔ c ∈ publishedComics st ∧ Comic.id c ≠ comicId)
  ∧ (publishedComics (unpublishComic comicId st) `sublist_of` publishedComics st)
  ∧ (∀ cur, currentComic st = Some cur →
       Comic.id cur ∉ Comic.id <$> publishedComics st →
       publishedComics (unpublishComic (Comic.id cur) (publishComic st))
       = publishedComics st).
Proof.
  split; [|split; [|split]].
  - simpl. intros Hin. apply list_elem_of_fmap in Hin as (c & Hid & Hc).
    apply list_elem_of_filter in Hc as [Hne _]. done.
  - intros c. simpl. rewrite list_elem_of_filter. tauto.
  - simpl. apply sublist_filter.
  - intros cur Hcur Hnew. unfold publishComic. rewrite Hcur. simpl.
    set (f := λ c : Comic, bool_decide (Comic.id c = Comic.id cur)).
    destruct (findIndex f (publishedComics st)) as [i|] eqn:Hfi.
    { destruct (findIndex_Some f _ i Hfi) as (x & Hx & Hfx & _).
      apply bool_decide_eq_true in Hfx. exfalso. apply Hnew.
      apply list_elem_of_fmap. exists x. split; [done|].
      apply list_elem_of_lookup. eauto. }
    rewrite filter_app. rewrite filter_cons_False by (intros H; by apply H).
    rewrite filter_nil, app_nil_r.
    clear Hfi. induction (publishedComics st) as [|c l IH]; [done|].
    simpl in Hnew. apply not_elem_of_cons in Hnew as [Hne Hnew].
    rewrite filter_cons_True by done. f_equal. by apply IH.
Qed.

(** *** Pages *)

Lemma filter_indexed_all {A} (f : A → nat → bool) (l : list A) (i0 : nat) :
  (∀ x i, (i0 ≤ i < i0 + length l)%nat → f x i = true) →
  filter_indexed f i0 l = l.
Proof.
  revert i0. induction l as [|x l IH]; intros i0 Hf; simpl in *; [done|].
  rewrite Hf by lia. f_equal. apply IH. intros y i Hi. apply Hf. lia.
Qed.

Lemma filter_indexed_delete {A} (l : list A) (i0 k : nat) (p : Z) :
  p = Z.of_nat (i0 + k) → (k < length l)%nat →
  filter_indexed (λ _ i, bool_decide (Z.of_nat i ≠ p)) i0 l = delete k l.
Proof.
  revert i0 k. induction l as [|x l IH]; intros i0 k Hp Hk; simpl in *; [lia|].
  destruct k as [|k].
  - rewrite bool_decide_eq_false_2 by (intros H; apply H; lia).
    simpl. apply filter_indexed_all. intros y i Hi.
    apply bool_decide_eq_true_2. lia.
  - rewrite bool_decide_eq_true_2 by lia. simpl. f_equal.
    apply IH; lia.
Qed.

(** X21. [removePage] never removes the last page of a comic: with one
    page or none the store is left as it is.  Otherwise the page at
    [pageIndex] is taken out, or nothing when there is no page at that
    index, and the index of the current page is brought back to the last
    page if it was beyond it: a current page of the comic stays one. *)
Theorem X21_removePage_keeps_a_page st cur pageIndex :
  currentComic st = Some cur →
  ∃ cur',
    currentComic (removePage pageIndex st) = Some cur'
    ∧ Comic.id cur' = Comic.id cur
    ∧ ((length (Comic.pages cur) ≤ 1)%nat → removePage pageIndex st = st)
    ∧ (Comic.pages cur ≠ [] → Comic.pages cur' ≠ [])
    ∧ ((1 < length (Comic.pages cur))%nat →
         Comic.pages cur'
         = (if decide (0 ≤ pageIndex < Z.of_nat (length (Comic.pages cur)))
            then delete (Z.to_nat pageIndex) (Comic.pages cur)
            else Comic.pages cur)
         ∧ currentPageIndex (removePage pageIndex st)
           ≤ Z.of_nat (length (Comic.pages cur')) - 1)
    ∧ (0 ≤ currentPageIndex st < Z.of_nat (length (Comic.pages cur)) →
         0 ≤ currentPageIndex (removePage pageIndex st)
           < Z.of_nat (length (Comic.pages cur'))).
Proof.
  intros Hcur. unfold removePage. rewrite Hcur.
  destruct (decide (length (Comic.pages cur) ≤ 1)%nat) as [Hle|Hgt].
  - exists cur. split; [done|]. split; [done|]. split; [done|]. split; [done|].
    split; [lia|]. done.
  - set (newPages := filter_indexed _ 0 (Comic.pages cur)).
    assert (newPages
            = if decide (0 ≤ pageIndex < Z.of_nat (length (Comic.pages cur)))
              then delete (Z.to_nat pageIndex) (Comic.pages cur)
              else Comic.pages cur) as Hnew.
    { subst newPages. destruct (decide _) as [Hin|Hout].
      - apply filter_indexed_delete; lia.
      - apply filter_indexed_all. intros x i Hi. apply bool_decide_eq_true_2. lia. }
    assert (length (Comic.pages cur) - 1 ≤ length newPages)%nat as Hlen.
    { rewrite Hnew. destruct (decide _); [|lia]. rewrite length_delete; [lia|].
      apply lookup_lt_is_Some. lia. }
    assert (length newPages ≤ length (Comic.pages cur))%nat as Hlen'.
    { rewrite Hnew. destruct (decide _); [|lia].
      destruct (Comic.pages cur !! Z.to_nat pageIndex) eqn:Hl.
      - rewrite length_delete by eauto. lia.
      - apply lookup_ge_None in Hl. lia. }
    exists (with_pages newPages cur). simpl.
    split; [done|]. split; [done|]. split; [lia|]. split.
    { intros _ Heq. rewrite Heq in Hlen. simpl in Hlen. lia. }
    split; [intros _; split; [done|lia]|]. intros Hidx. lia.
Qed.

(** X22. [addPage] appends an empty page and makes it the current one,
    leaving the pages before it as they are; removing that page again
    gives back the comic, with the current page on its last page. *)
Theorem X22_addPage_then_removePage st cur :
  currentComic st = Some cur →
  let st1 := addPage st in
  currentComic st1 = Some (with_pages (Comic.pages cur ++ [[]]) cur)
  ∧ currentPageIndex st1 = Z.of_nat (length (Comic.pages cur))
  ∧ (∀ i page, Comic.pages cur !! i = Some page →
       Comic.pages (with_pages (Comic.pages cur ++ [[]]) cur) !! i = Some page)
  ∧ (Comic.pages cur ≠ [] →
       currentComic (removePage (currentPageIndex st1) st1) = Some cur
       ∧ currentPageIndex (removePage (currentPageIndex st1) st1)
         = Z.of_nat (length (Comic.pages cur)) - 1).
Proof.
  intros Hcur. unfold addPage. rewrite Hcur. simpl.
  rewrite length_app. simpl.
  split; [done|]. split; [lia|]. split.
  - intros i page Hi. by apply lookup_app_l_Some.
  - intros Hne. unfold removePage. simpl. rewrite length_app. simpl.
    destruct (Comic.pages cur) as [|p0 ps] eqn:Hps; [done|].
    rewrite decide_False by (simpl; lia).
    assert (filter_indexed
              (λ _ i, bool_decide
                        (Z.of_nat i ≠ Z.of_nat (length (p0 :: ps) + 1) - 1)) 0
              ((p0 :: ps) ++ [[]]) = p0 :: ps) as ->.
    { rewrite (filter_indexed_delete _ 0 (length (p0 :: ps)))
        by (rewrite ?length_app; simpl; lia).
      rewrite delete_take_drop. rewrite take_app_length.
      rewrite drop_ge by (rewrite length_app; simpl; lia). by rewrite app_nil_r. }
    split; [|cbn [currentPageIndex]; lia].
    cbn [currentComic]. f_equal. destruct cur as [i p r]. simpl in Hps. subst p. done.
Qed.

(** *** Panels *)

(** X23. [removePanel] fails with a [TypeError] when the comic has no
    page at [pageIndex].  On a page of the comic it takes out every
    panel of the given [id] and keeps the other panels of the page in
    their order; the other pages, their number, and the rest of the
    store are untouched. *)
Theorem X23_removePanel_edits_one_page st cur panelId pageIndex :
  currentComic st = Some cur →
  ((length (Comic.pages cur) ≤ pageIndex)%nat →
     removePanel panelId pageIndex st = ThrowsTypeError)
  ∧ (∀ page, Comic.pages cur !! pageIndex = Some page →
       ∃ st' cur',
         removePanel panelId pageIndex st = Sets st'
         ∧ currentComic st' = Some cur'
         ∧ publishedComics st' = publishedComics st
         ∧ currentPageIndex st' = currentPageIndex st
         ∧ length (Comic.pages cur') = length (Comic.pages cur)
         ∧ (∀ j, j ≠ pageIndex → Comic.pages cur' !! j = Comic.pages cur !! j)
         ∧ Comic.pages cur' !! pageIndex
           = Some (filter (λ p, Panel.id p ≠ panelId) page)
         ∧ (panelId ∉ (Panel.id <$> filter (λ p, Panel.id p ≠ panelId) page))
         ∧ (∀ panelId', removePanel panelId' pageIndex st' ≠ ThrowsTypeError)).
Proof.
  intros Hcur. unfold removePanel. rewrite Hcur. split.
  - intros Hout. by rewrite (proj2 (lookup_ge_None _ _) Hout).
  - intros page Hpage. rewrite Hpage.
    pose proof (lookup_lt_Some _ _ _ Hpage) as Hlt.
    set (page' := filter (λ p, Panel.id p ≠ panelId) page).
    exists (set_pages (<[pageIndex := page']> (Comic.pages cur)) cur st),
           (with_pages (<[pageIndex := page']> (Comic.pages cur)) cur).
    split; [done|]. simpl. split; [done|]. split; [done|].
    split; [done|]. split; [by rewrite length_insert|]. split.
    { intros j Hj. by rewrite list_lookup_insert_ne. }
    split; [by apply list_lookup_insert_eq|]. split.
    { intros Hin. apply list_elem_of_fmap in Hin as (p & Hid & Hp).
      apply list_elem_of_filter in Hp as [Hne _]. done. }
    intros panelId'. unfold removePanel. simpl.
    by rewrite list_lookup_insert_eq.
Qed.

Lemma delete_middle {A} (l1 l2 : list A) x :
  delete (length l1) (l1 ++ x :: l2) = l1 ++ l2.
Proof. induction l1 as [|y l1 IH]; simpl; [done|]. by rewrite IH. Qed.

Lemma splice_in_middle {A} (l1 l2 : list A) x :
  splice_in (length l1) x (l1 ++ l2) = l1 ++ x :: l2.
Proof.
  unfold splice_in. rewrite take_app_length.
  by rewrite drop_app_length.
Qed.

Lemma splice_in_spec {A} (m : list A) j x :
  ∃ l1 l2 : list A, m = l1 ++ l2 ∧ length l1 = (j `min` length m)%nat
           ∧ splice_in j x m = l1 ++ x :: l2.
Proof.
  exists (take j m), (drop j m). split; [by rewrite take_drop|].
  split; [apply length_take|done].
Qed.

Lemma splice_back {A} (l : list A) i j x :
  l !! i = Some x → (j < length l)%nat →
  splice_in j x (delete i l) !! j = Some x
  ∧ delete j (splice_in j x (delete i l)) = delete i l
  ∧ splice_in i x (delete i l) = l.
Proof.
  intros Hi Hj. pose proof (lookup_lt_Some _ _ _ Hi) as Hlt.
  assert (length (delete i l) = length l - 1)%nat as Hlen
    by (rewrite length_delete by eauto; lia).
  destruct (splice_in_spec (delete i l) j x) as (l1 & l2 & Hm & Hl1 & Hs).
  rewrite Nat.min_l in Hl1 by lia.
  split; [|split].
  - rewrite Hs, lookup_app_r by lia. by rewrite Hl1, Nat.sub_diag.
  - rewrite Hs, <- Hl1, delete_middle. done.
  - rewrite delete_take_drop.
    replace i with (length (take i l)) at 1 by (rewrite length_take; lia).
    rewrite splice_in_middle. by apply take_drop_middle.
Qed.

(** X24. [reorderPanels] fails with a [TypeError] when the comic has no
    page at [pageIndex], and leaves an [undefined] among the panels of
    the page when the page has no panel at [startIndex].  Otherwise it
    moves that panel: the page keeps its panels, each as often as
    before, the moved panel stands at [endIndex], or at the end of the
    page when [endIndex] is beyond it, and the other pages are
    untouched. *)
Theorem X24_reorderPanels_moves_one_panel st cur startIndex endIndex pageIndex :
  currentComic st = Some cur →
  ((length (Comic.pages cur) ≤ pageIndex)%nat →
     reorderPanels startIndex endIndex pageIndex st = ThrowsTypeError)
  ∧ (∀ page, Comic.pages cur !! pageIndex = Some page →
       ((length page ≤ startIndex)%nat →
          reorderPanels startIndex endIndex pageIndex st = StoresUndefined)
       ∧ (∀ moved, page !! startIndex = Some moved →
            ∃ st' cur' page',
              reorderPanels startIndex endIndex pageIndex st = Sets st'
              ∧ currentComic st' = Some cur'
              ∧ Comic.pages cur' !! pageIndex = Some page'
              ∧ page' ≡ₚ page
              ∧ page' !! (endIndex `min` (length page - 1))%nat = Some moved
              ∧ (∀ j, j ≠ pageIndex →
                   Comic.pages cur' !! j = Comic.pages cur !! j)
              ∧ length (Comic.pages cur') = length (Comic.pages cur))).
Proof.
  intros Hcur. unfold reorderPanels. rewrite Hcur. split.
  - intros Hout. by rewrite (proj2 (lookup_ge_None _ _) Hout).
  - intros page Hpage. rewrite Hpage. unfold splice_out. split.
    + intros Hout. by rewrite (proj2 (lookup_ge_None _ _) Hout).
    + intros moved Hmoved. rewrite Hmoved.
      pose proof (lookup_lt_Some _ _ _ Hpage) as Hlt.
      pose proof (lookup_lt_Some _ _ _ Hmoved) as Hlt'.
      set (page' := splice_in endIndex moved (delete startIndex page)).
      exists (set_pages (<[pageIndex := page']> (Comic.pages cur)) cur st),
             (with_pages (<[pageIndex := page']> (Comic.pages cur)) cur), page'.
      split; [done|]. split; [done|]. simpl.
      split; [by apply list_lookup_insert_eq|].
      destruct (splice_in_spec (delete startIndex page) endIndex moved)
        as (l1 & l2 & Hm & Hl1 & Hs).
      fold page' in Hs.
      assert (length (delete startIndex page) = length page - 1)%nat as Hlen
        by (rewrite length_delete by eauto; lia).
      split; [|split; [|split]].
      * rewrite Hs. rewrite <- Permutation_middle, <- Hm.
        symmetry. by apply delete_Permutation.
      * rewrite Hs, <- Hlen, <- Hl1, lookup_app_r by lia. by rewrite Nat.sub_diag.
      * intros j Hj. by rewrite list_lookup_insert_ne.
      * by rewrite length_insert.
Qed.

(** X25. Moving a panel and moving it back restores the store: after
    [reorderPanels] from [startIndex] to [endIndex], both on the page,
    [reorderPanels] from [endIndex] to [startIndex] gives the state
    before the first move. *)
Theorem X25_reorderPanels_back_and_forth st cur page startIndex endIndex pageIndex :
  currentComic st = Some cur →
  Comic.pages cur !! pageIndex = Some page →
  (startIndex < length page)%nat → (endIndex < length page)%nat →
  ∃ st', reorderPanels startIndex endIndex pageIndex st = Sets st'
         ∧ reorderPanels endIndex startIndex pageIndex st' = Sets st.
Proof.
  intros Hcur Hpage Hs He.
  destruct (lookup_lt_is_Some_2 page startIndex Hs) as [moved Hmoved].
  destruct (splice_back page startIndex endIndex moved Hmoved He) as (H1 & H2 & H3).
  pose proof (lookup_lt_Some _ _ _ Hpage) as Hlt.
  set (page' := splice_in endIndex moved (delete startIndex page)) in *.
  exists (set_pages (<[pageIndex := page']> (Comic.pages cur)) cur st).
  split.
  - unfold reorderPanels, splice_out. by rewrite Hcur, Hpage, Hmoved.
  - unfold reorderPanels, splice_out. simpl.
    rewrite list_lookup_insert_eq by done. rewrite H1, H2, H3.
    rewrite list_insert_insert_eq, list_insert_id by done.
    f_equal. unfold set_pages. simpl.
    destruct st as [pub curc idx mode]. simpl in *. subst curc.
    f_equal. f_equal. by destruct cur.
Qed.
End store.

(** The theorems of the store at a comic of three pages, with panels
    that carry no other field. *)
Lemma X18_witness :
  let a : Comic.t (Panel.t unit) unit := Comic.mk _ _ "a" [[]] tt in
  let a' : Comic.t (Panel.t unit) unit := Comic.mk _ _ "a" [[]; []] tt in
  let b : Comic.t (Panel.t unit) unit := Comic.mk _ _ "b" [[]] tt in
  let st := mkStore [a; b] (Some a') 1 true in
  currentComic st = Some a'
  ∧ publishedComics (publishComic st) = [a'; b]
  ∧ currentComic (publishComic st) = None
  ∧ (a' ∈ publishedComics (publishComic st)).
Proof.
  intros a a' b st. split; [reflexivity|]. split; [reflexivity|].
  destruct (X18_publish_replaces_by_id st a' eq_refl) as (H1 & _ & _ & H4 & _).
  split; [exact H1|exact H4].
Defined.

Lemma X19_witness :
  let a : Comic.t (Panel.t unit) unit := Comic.mk _ _ "a" [[]] tt in
  let st := mkStore [] (Some a) 0 true in
  currentComic st = Some a
  ∧ publishedComics (publishComic (mkStore [a] (Some a) 0 false)) = [a].
Proof.
  intros a st. split; [reflexivity|].
  exact (X19_publish_twice_is_publish_once st a eq_refl).
Defined.

Lemma X20_witness :
  let a : Comic.t (Panel.t unit) unit := Comic.mk _ _ "a" [[]] tt in
  let b : Comic.t (Panel.t unit) unit := Comic.mk _ _ "b" [[]] tt in
  let st := mkStore [a] (Some b) 0 true in
  currentComic st = Some b
  ∧ publishedComics (publishComic st) = [a; b]
  ∧ publishedComics (unpublishComic "b" (publishComic st)) = [a].
Proof.
  intros a b st. split; [reflexivity|]. split; [reflexivity|].
  refine (proj2 (proj2 (proj2 (X20_unpublish_undoes_publish st "b"))) b eq_refl _).
  simpl. intros Hin. apply list_elem_of_singleton in Hin. done.
Defined.

Lemma X21_witness :
  let p (i : string) : Panel.t unit := Panel.mk _ i tt in
  let c : Comic.t (Panel.t unit) unit := Comic.mk _ _ "a" [[p "x"]; [p "y"]; []] tt in
  let st := mkStore [] (Some c) 2 true in
  currentComic st = Some c
  ∧ currentComic (removePage 0 st)
    = Some (Comic.mk _ _ "a" [[p "y"]; []] tt)
  ∧ currentPageIndex (removePage 0 st) = 1
  ∧ ∃ cur', currentComic (removePage 0 st) = Some cur' ∧ Comic.pages cur' ≠ [].
Proof.
  intros p c st. split; [reflexivity|]. split; [reflexivity|]. split; [reflexivity|].
  destruct (X21_removePage_keeps_a_page st c 0 eq_refl) as (cur' & H1 & _ & _ & H4 & _).
  exists cur'. split; [exact H1|]. by apply H4.
Defined.

Lemma X22_witness :
  let c : Comic.t (Panel.t unit) unit :=
    Comic.mk _ _ "a" [[Panel.mk _ "x" tt]] tt in
  let st := mkStore [] (Some c) 0 true in
  currentComic st = Some c
  ∧ currentPageIndex (addPage st) = 1
  ∧ currentComic (removePage 1 (addPage st)) = Some c.
Proof.
  intros c st. split; [reflexivity|].
  destruct (X22_addPage_then_removePage st c eq_refl) as (_ & H2 & _ & H4).
  split; [exact H2|]. refine (proj1 (H4 _)). done.
Defined.

Lemma X23_witness :
  let p (i : string) : Panel.t unit := Panel.mk _ i tt in
  let c : Comic.t (Panel.t unit) unit := Comic.mk _ _ "a" [[p "x"; p "y"; p "x"]] tt in
  let st := mkStore [] (Some c) 0 true in
  currentComic st = Some c
  ∧ removePanel "x" 1 st = ThrowsTypeError
  ∧ removePanel "x" 0 st
    = Sets (mkStore [] (Some (Comic.mk _ _ "a" [[p "y"]] tt)) 0 true).
Proof.
  intros p c st. split; [reflexivity|].
  destruct (X23_removePanel_edits_one_page st c "x" 1%nat eq_refl) as [H1 _].
  split; [apply H1; simpl; lia|reflexivity].
Defined.

Lemma X24_witness :
  let p (i : string) : Panel.t unit := Panel.mk _ i tt in
  let c : Comic.t (Panel.t unit) unit := Comic.mk _ _ "a" [[p "x"; p "y"; p "z"]] tt in
  let st := mkStore [] (Some c) 0 true in
  currentComic st = Some c
  ∧ reorderPanels 0 9 0 st
    = Sets (mkStore [] (Some (Comic.mk _ _ "a" [[p "y"; p "z"; p "x"]] tt)) 0 true)
  ∧ reorderPanels 3 0 0 st = StoresUndefined
  ∧ reorderPanels 0 1 1 st = ThrowsTypeError.
Proof.
  intros p c st. split; [reflexivity|]. split; [reflexivity|].
  destruct (X24_reorderPanels_moves_one_panel st c 3 0 0 eq_refl) as [_ H2].
  destruct (X24_reorderPanels_moves_one_panel st c 0 1 1 eq_refl) as [H1 _].
  split; [|apply H1; simpl; lia].
  refine (proj1 (H2 _ eq_refl) _). simpl. lia.
Defined.

Lemma X25_witness :
  let p (i : string) : Panel.t unit := Panel.mk _ i tt in
  let c : Comic.t (Panel.t unit) unit := Comic.mk _ _ "a" [[p "x"; p "y"; p "z"]] tt in
  let st := mkStore [] (Some c) 0 true in
  currentComic st = Some c
  ∧ ∃ st', reorderPanels 0 2 0 st = Sets st' ∧ reorderPanels 2 0 0 st' = Sets st.
Proof.
  intros p c st. split; [reflexivity|].
  refine (X25_reorderPanels_back_and_forth st c _ 0 2 0 eq_refl eq_refl _ _);
    simpl; lia.
Defined.

End StoreProps.
